(** * Halide scalar parameters ([src/Param.h]): a shallow embedding

    [Param<T>] is a thin, typed front end over a shared, reference-counted
    [Internal::Parameter] record.  The header only contains the front end;
    the record, the IR expression type, the cast and variable node
    constructors, the signature argument type and the assertion macro are
    collaborators declared elsewhere.  They are modelled here, each under a
    comment saying where the model comes from, and the methods of [Param<T>]
    are then transcribed from the header one by one.

    Shared state is explicit: a world holds the store of parameter records,
    a handle is an index into that store, and every method is a computation
    in a state-and-error monad over the world.  [get_address], which hands
    out the machine address of the scalar slot, is left out. *)

From Stdlib Require Import ZArith Ascii String.
From stdpp Require Import base decidable option list strings.

Local Open Scope Z_scope.
Local Open Scope string_scope.
Local Open Scope list_scope.

(** ** Type tags *)

(** Modelled from the spec: the type-tag system ([Type], [type_of<T>()],
    [Handle()]) is declared outside [Param.h].  The spec only requires tags
    with a decidable equality and one opaque handle tag. *)
Inductive Type_ : Type :=
  | Bool
  | Int (bits : N)
  | UInt (bits : N)
  | Float (bits : N)
  | Handle.

#[global] Instance Type__eq_dec : EqDecision Type_.
Proof. solve_decision. Defined.

(** ** References to parameter records *)

(** Modelled from the spec: [Internal::Parameter] is "a reference-counted
    handle on the internal parameter object" (Param.h, line 27; spec,
    section 3: "copy = share, not duplicate").  A value of this type names a
    record in the store; copying it yields the same name.  Reference counts
    and the release of a record are not modelled. *)
Definition InternalParameter : Type := nat.

(** ** IR expressions *)

(** Modelled from the spec: the IR expression type is declared outside
    [Param.h].  The spec (section 6) asks for a default-constructed undefined
    sentinel, a type query, a cast node and a named-variable node that
    carries its backing record; [IntImm] stands for the literals a caller
    passes as bounds. *)
Inductive Expr : Type :=
  | Undefined
  | IntImm (value : Z)
  | FloatImm (bits : Z)
  | CastNode (t : Type_) (value : Expr)
  | VariableNode (t : Type_) (name : string) (param : InternalParameter).

#[global] Instance Expr_eq_dec : EqDecision Expr.
Proof. solve_decision. Defined.

(** Modelled from the spec: [Internal::Cast::make(t, e)] is the cast node
    constructor of section 6, [makeCast(targetType, expr) -> Expr]. *)
Definition Cast_make (t : Type_) (e : Expr) : Expr := CastNode t e.

(** Modelled from the spec: [Internal::Variable::make(t, name, param)] is
    the named-variable constructor of section 6,
    [makeVariable(type, name, backingRecord) -> Expr]. *)
Definition Variable_make (t : Type_) (name : string) (param : InternalParameter) : Expr :=
  VariableNode t name param.

(** The record a variable node refers to, if the expression is one. *)
Definition backing_record (e : Expr) : option InternalParameter :=
  match e with VariableNode _ _ p => Some p | _ => None end.

(** ** The scalar slot and the [type_of<T>] trait *)

(** Modelled from the spec: the record's scalar storage slot.  The record
    keeps a value of any scalar type in one untyped slot; a C++ type [T]
    that may instantiate [Param<T>] comes with its type tag and with the way
    its values are written to and read back from that slot. *)
Definition slot : Type := Z.

(** Modelled from the spec: [type_of<T>()] and the typed access to the
    slot ([set_scalar<T>], [get_scalar<T>]); what is written is what is
    read back. *)
Class ScalarType (T : Type) : Type := {
  type_of : Type_;
  to_slot : T -> slot;
  of_slot : slot -> T;
  of_to_slot : forall v : T, of_slot (to_slot v) = v
}.
Arguments type_of T {_}.

(** [Internal::not_a_pointer<T>] (Param.h, lines 17-18): the trait holds of
    the non-pointer types only, so the value-only constructor is not
    available at pointer types. *)
Class not_a_pointer (T : Type) : Type := NotAPointer {}.

(** The C++ types used in the examples. *)
Record int32_t : Type := Int32 { int32_val : Z }.
Record uint8_t : Type := UInt8 { uint8_val : N }.
Record float_t : Type := Float32 { float_bits : Z }.
Record void_ptr : Type := VoidPtr { address : N }.

#[global, refine] Instance int32_scalar : ScalarType int32_t :=
  {| type_of := Int 32; to_slot v := int32_val v; of_slot z := Int32 z |}.
Proof. by intros []. Defined.

#[global, refine] Instance uint8_scalar : ScalarType uint8_t :=
  {| type_of := UInt 8; to_slot v := Z.of_N (uint8_val v);
     of_slot z := UInt8 (Z.to_N z) |}.
Proof. intros [n]; simpl. by rewrite N2Z.id. Defined.

#[global, refine] Instance float_scalar : ScalarType float_t :=
  {| type_of := Float 32; to_slot v := float_bits v; of_slot z := Float32 z |}.
Proof. by intros []. Defined.

#[global, refine] Instance bool_scalar : ScalarType bool :=
  {| type_of := Bool; to_slot (v : bool) := if v then 1 else 0;
     of_slot z := negb (Z.eqb z 0) |}.
Proof. by intros []. Defined.

#[global, refine] Instance void_ptr_scalar : ScalarType void_ptr :=
  {| type_of := Handle; to_slot v := Z.of_N (address v);
     of_slot z := VoidPtr (Z.to_N z) |}.
Proof. intros [n]; simpl. by rewrite N2Z.id. Defined.

#[global] Instance int32_not_a_pointer : not_a_pointer int32_t := NotAPointer _.
#[global] Instance uint8_not_a_pointer : not_a_pointer uint8_t := NotAPointer _.
#[global] Instance float_not_a_pointer : not_a_pointer float_t := NotAPointer _.
#[global] Instance bool_not_a_pointer : not_a_pointer bool := NotAPointer _.

(** ** Parameter records, the store and the monad *)

(** Modelled from the spec: the state behind one [Internal::Parameter]
    (section 3, ParameterRecord).  A bound that is unset is the undefined
    expression; a value or default that was never written is [None]. *)
Record ParameterContents : Type := mkContents {
  pc_type : Type_;
  pc_is_output : bool;
  pc_dimensions : Z;
  pc_name : string;
  pc_is_explicit_name : bool;
  pc_value : option slot;
  pc_default : option slot;
  pc_min_value : Expr;
  pc_max_value : Expr
}.

(** What happened to the records, in order: one event per call that
    creates or writes a record. *)
Inductive Event : Type :=
  | Created (p : InternalParameter)
  | ScalarSet (p : InternalParameter) (v : slot)
  | DefaultSet (p : InternalParameter) (v : slot)
  | MinValueSet (p : InternalParameter) (e : Expr)
  | MaxValueSet (p : InternalParameter) (e : Expr).

Record World : Type := mkWorld {
  store : list ParameterContents;
  history : list Event
}.

Inductive Error : Type :=
  | ReservedNameError (message : string)
  | UndefinedExprError
  | DanglingParameterError.

Inductive outcome (A : Type) : Type :=
  | Ok (a : A)
  | Raised (e : Error).
Arguments Ok {A} a.
Arguments Raised {A} e.

(** A computation reads and writes the world and either returns a value or
    raises; the world at the point of the failure is kept. *)
Definition M (A : Type) : Type := World -> outcome A * World.

#[global] Instance M_ret : MRet M := fun A a w => (Ok a, w).
#[global] Instance M_bind : MBind M := fun A B f m w =>
  match m w with
  | (Ok a, w') => f a w'
  | (Raised e, w') => (Raised e, w')
  end.

Definition raise {A : Type} (e : Error) : M A := fun w => (Raised e, w).

Definition empty_world : World := {| store := []; history := [] |}.

(** ** [Internal::Parameter] *)

(** Modelled from the spec: the methods of the shared record (section 4.2),
    which [Param.h] calls but does not define.  Every method goes through the
    reference to the record in the store, so all holders of the same
    reference observe the same state. *)
Module InternalParameter.

(** Modelled from the spec: the record a constructor call allocates, "a
    fresh record with no value, no bounds, no default". *)
Definition fresh_contents (t : Type_) (is_output : bool) (d : Z)
    (name : string) (is_explicit_name : bool) : ParameterContents :=
  {| pc_type := t; pc_is_output := is_output; pc_dimensions := d;
     pc_name := name; pc_is_explicit_name := is_explicit_name;
     pc_value := None; pc_default := None;
     pc_min_value := Undefined; pc_max_value := Undefined |}.

(** Modelled from the spec: the constructor "allocates a new record"; the
    new record gets the next free place of the store. *)
Definition create (t : Type_) (is_output : bool) (d : Z) (name : string)
    (is_explicit_name : bool) : M InternalParameter :=
  fun w =>
    let p := length (store w) in
    (Ok p,
     {| store := store w ++ [fresh_contents t is_output d name is_explicit_name];
        history := history w ++ [Created p] |}).

(** Modelled from the spec: an accessor reads one field of the record
    behind the reference. *)
Definition read {A : Type} (p : InternalParameter)
    (f : ParameterContents -> A) : M A :=
  fun w =>
    match store w !! p with
    | Some r => (Ok (f r), w)
    | None => (Raised DanglingParameterError, w)
    end.

(** Modelled from the spec: a setter replaces the record behind the
    reference and is recorded in the history. *)
Definition write (p : InternalParameter)
    (f : ParameterContents -> ParameterContents) (ev : Event) : M unit :=
  fun w =>
    match store w !! p with
    | Some r => (Ok tt, {| store := <[p := f r]> (store w);
                           history := history w ++ [ev] |})
    | None => (Raised DanglingParameterError, w)
    end.

(** Modelled from the spec: [name()], [is_explicit_name()]. *)
Definition name (p : InternalParameter) : M string := read p pc_name.

(** Modelled from the spec: see [name]. *)
Definition is_explicit_name (p : InternalParameter) : M bool :=
  read p pc_is_explicit_name.

(** Modelled from the spec: a record with one field replaced (value,
    default, lower bound, upper bound); type and name never change. *)
Definition with_value (v : option slot) (r : ParameterContents) : ParameterContents :=
  {| pc_type := pc_type r; pc_is_output := pc_is_output r;
     pc_dimensions := pc_dimensions r; pc_name := pc_name r;
     pc_is_explicit_name := pc_is_explicit_name r;
     pc_value := v; pc_default := pc_default r;
     pc_min_value := pc_min_value r; pc_max_value := pc_max_value r |}.

(** Modelled from the spec: see [with_value]. *)
Definition with_default (v : option slot) (r : ParameterContents) : ParameterContents :=
  {| pc_type := pc_type r; pc_is_output := pc_is_output r;
     pc_dimensions := pc_dimensions r; pc_name := pc_name r;
     pc_is_explicit_name := pc_is_explicit_name r;
     pc_value := pc_value r; pc_default := v;
     pc_min_value := pc_min_value r; pc_max_value := pc_max_value r |}.

(** Modelled from the spec: see [with_value]. *)
Definition with_min_value (e : Expr) (r : ParameterContents) : ParameterContents :=
  {| pc_type := pc_type r; pc_is_output := pc_is_output r;
     pc_dimensions := pc_dimensions r; pc_name := pc_name r;
     pc_is_explicit_name := pc_is_explicit_name r;
     pc_value := pc_value r; pc_default := pc_default r;
     pc_min_value := e; pc_max_value := pc_max_value r |}.

(** Modelled from the spec: see [with_value]. *)
Definition with_max_value (e : Expr) (r : ParameterContents) : ParameterContents :=
  {| pc_type := pc_type r; pc_is_output := pc_is_output r;
     pc_dimensions := pc_dimensions r; pc_name := pc_name r;
     pc_is_explicit_name := pc_is_explicit_name r;
     pc_value := pc_value r; pc_default := pc_default r;
     pc_min_value := pc_min_value r; pc_max_value := e |}.

(** Modelled from the spec: [set_scalar<T>(val)] "stores value into the
    scalar slot"; it does not look at the bounds. *)
Definition set_scalar {T : Type} `{ScalarType T} (p : InternalParameter)
    (val : T) : M unit :=
  write p (with_value (Some (to_slot val))) (ScalarSet p (to_slot val)).

(** Modelled from the spec: [get_scalar<T>()] "returns the current stored
    value"; [None] when the slot was never written, where the spec leaves
    the result unspecified. *)
Definition get_scalar {T : Type} `{ScalarType T} (p : InternalParameter)
    : M (option T) :=
  read p (fun r => of_slot <$> pc_value r).

(** Modelled from the spec: [set_default(value)] "stores the default
    value". *)
Definition set_default {T : Type} `{ScalarType T} (p : InternalParameter)
    (val : T) : M unit :=
  write p (with_default (Some (to_slot val))) (DefaultSet p (to_slot val)).

(** Modelled from the spec: [set_min_value(expr)] and [set_max_value(expr)]
    "store an IR expression as the respective bound", as it is given. *)
Definition set_min_value (p : InternalParameter) (e : Expr) : M unit :=
  write p (with_min_value e) (MinValueSet p e).

(** Modelled from the spec: see [set_min_value]. *)
Definition set_max_value (p : InternalParameter) (e : Expr) : M unit :=
  write p (with_max_value e) (MaxValueSet p e).

(** Modelled from the spec: [get_min_value()] and [get_max_value()] "return
    the stored bound expression, or an undefined sentinel". *)
Definition get_min_value (p : InternalParameter) : M Expr := read p pc_min_value.

(** Modelled from the spec: see [get_min_value]. *)
Definition get_max_value (p : InternalParameter) : M Expr := read p pc_max_value.

(** Modelled from the spec: [get_scalar_expr()] returns "an IR
    literal-expression view of the current default/value".  The view itself
    is left open: it is any function of the record. *)
Definition get_scalar_expr (view : ParameterContents -> Expr)
    (p : InternalParameter) : M Expr :=
  read p view.

End InternalParameter.

(** ** Signature arguments and extern arguments *)

(** Modelled from the spec: the signature-argument descriptor (section 6),
    built from [(name, kind, type, rank, default, min, max)]. *)
Inductive ArgumentKind : Type := InputScalar | InputBuffer | OutputBuffer.

(** Modelled from the spec: the fields of the descriptor, in the order of
    the constructor call of line 169. *)
Record Argument : Type := mkArgument {
  arg_name : string;
  arg_kind : ArgumentKind;
  arg_type : Type_;
  arg_dimensions : Z;
  arg_def : Expr;
  arg_min : Expr;
  arg_max : Expr
}.

(** Modelled from the spec: "an extern-call-argument type constructible from
    an expression". *)
Inductive ExternFuncArgument : Type :=
  | ExternExpr (e : Expr).

(** ** The assertion macro *)

(** Modelled from the spec: [user_assert(c) << msg] is the precondition-check
    facility of section 6: on a false condition it aborts the operation and
    surfaces the message.  Its only use in [Param.h] is the reserved-name
    check, whose failure section 7 names [ReservedNameError]. *)
Definition user_assert (c : bool) (msg : string) : M unit :=
  if c then mret tt else raise (ReservedNameError msg).

(** ** Strings *)

Definition dquote : string := String "034"%char EmptyString.

(** [contains needle hay]: [needle] occurs in [hay] as a contiguous block. *)
Fixpoint contains (needle hay : string) : bool :=
  String.prefix needle hay ||
  match hay with
  | EmptyString => false
  | String _ rest => contains needle rest
  end.

(** ** [Param<T>] *)

(** A handle owns one reference to a record (Param.h, line 28).  The copy
    constructor is the implicit member-wise one: the copy holds the same
    reference. *)
Record Param (T : Type) : Type := mkParam { param : InternalParameter }.
Arguments mkParam {T} param.
Arguments param {T} p.

Definition copy {T : Type} (p : Param T) : Param T := mkParam (param p).

Section ParamMethods.

Context {T : Type} `{ScalarType T}.

(** What [Expr::type()] answers on the undefined expression is not fixed
    by anything [Param.h] or the spec says: it is either a fault ([None])
    or some tag. *)
Variable type_of_undefined : option Type_.

(** [Internal::make_entity_name(this, prefix, tag)], declared elsewhere:
    from the address of the handle, a prefix and a one-character tag to a
    name. *)
Variable make_entity_name : N -> string -> ascii -> string.

(** The literal view behind [Parameter::get_scalar_expr()]. *)
Variable scalar_expr_view : ParameterContents -> Expr.

(** Modelled from the spec: [Expr::type()] is the type query of section 6:
    the tag of a defined expression; on the undefined expression, whatever
    [type_of_undefined] says. *)
Definition type_read (e : Expr) : option Type_ :=
  match e with
  | Undefined => type_of_undefined
  | IntImm _ => Some (Int 32)
  | FloatImm _ => Some (Float 32)
  | CastNode t _ => Some t
  | VariableNode t _ _ => Some t
  end.

(** Modelled from the spec: the type query as a computation; it raises
    when the query faults. *)
Definition Expr_type (e : Expr) : M Type_ :=
  match type_read e with
  | Some t => mret t
  | None => raise UndefinedExprError
  end.

(** The text streamed into the assertion of [check_name] (lines 31-34). *)
Definition check_name_message : string :=
  String.concat ""
    [ "Param<void*>("; dquote; "__user_context"; dquote; ") ";
      "is no longer used to control whether Halide functions take explicit ";
      "user_context arguments. Use set_custom_user_context() when jitting, ";
      "or add Target::UserContext to the Target feature set when compiling ahead of time." ].

(** Lines 30-35. *)
Definition check_name (p : Param T) : M unit :=
  n ← InternalParameter.name (param p);
  user_assert (bool_decide (n ≠ "__user_context")) check_name_message.

(** Lines 88-95. *)
Definition name (p : Param T) : M string := InternalParameter.name (param p).

Definition is_explicit_name (p : Param T) : M bool :=
  InternalParameter.is_explicit_name (param p).

(** Lines 98-105. *)
Definition get (p : Param T) : M (option T) :=
  InternalParameter.get_scalar (param p).

Definition set (p : Param T) (val : T) : M unit :=
  InternalParameter.set_scalar (param p) val.

(** Lines 114-116. *)
Definition type (p : Param T) : Type_ := type_of T.

(** Lines 126-138. *)
Definition set_min_value (p : Param T) (min : Expr) : M unit :=
  t ← Expr_type min;
  let min :=
    if bool_decide (t ≠ type_of T) then Cast_make (type_of T) min else min in
  InternalParameter.set_min_value (param p) min.

Definition set_max_value (p : Param T) (max : Expr) : M unit :=
  t ← Expr_type max;
  let max :=
    if bool_decide (t ≠ type_of T) then Cast_make (type_of T) max else max in
  InternalParameter.set_max_value (param p) max.

(** Lines 121-124. *)
Definition set_range (p : Param T) (min max : Expr) : M unit :=
  set_min_value p min;;
  set_max_value p max.

(** Lines 140-146. *)
Definition get_min_value (p : Param T) : M Expr :=
  InternalParameter.get_min_value (param p).

Definition get_max_value (p : Param T) : M Expr :=
  InternalParameter.get_max_value (param p).

(** Lines 149-151. *)
Definition set_default_value (p : Param T) (value : T) : M unit :=
  InternalParameter.set_default (param p) value.

(** [operator Expr], lines 155-157. *)
Definition to_Expr (p : Param T) : M Expr :=
  n ← name p;
  mret (Variable_make (type_of T) n (param p)).

(** [operator ExternFuncArgument], lines 161-163. *)
Definition to_ExternFuncArgument (p : Param T) : M ExternFuncArgument :=
  e ← to_Expr p;
  mret (ExternExpr e).

(** [operator Argument], lines 168-171. *)
Definition to_Argument (p : Param T) : M Argument :=
  n ← name p;
  d ← InternalParameter.get_scalar_expr scalar_expr_view (param p);
  lo ← InternalParameter.get_min_value (param p);
  hi ← InternalParameter.get_max_value (param p);
  mret (mkArgument n InputScalar (type p) 0 d lo hi).

(** *** Constructors *)

(** The record of an unnamed handle.  The four-argument call of lines 41,
    58 and 73 leaves [is_explicit_name] to its default, which is [false]:
    the flag is "true iff the name came from the user". *)
Definition create_unnamed (this : N) : M InternalParameter :=
  InternalParameter.create (type_of T) false 0
    (make_entity_name this "Halide::Param<?" "p"%char) false.

(** [Param()], lines 40-41. *)
Definition Param_new (this : N) : M (Param T) :=
  r ← create_unnamed this;
  mret (mkParam r).

(** [Param(const std::string &n)], lines 45-48. *)
Definition Param_named (n : string) : M (Param T) :=
  r ← InternalParameter.create (type_of T) false 0 n true;
  check_name (mkParam r);;
  mret (mkParam r).

(** [Param(const char *n)], lines 49-52; the C string converts to a
    [std::string] of the same characters. *)
Definition Param_named_cstr (n : string) : M (Param T) :=
  r ← InternalParameter.create (type_of T) false 0 n true;
  check_name (mkParam r);;
  mret (mkParam r).

(** [Param(not_a_pointer<T>::type val)], lines 57-60. *)
Definition Param_value `{not_a_pointer T} (this : N) (val : T) : M (Param T) :=
  r ← create_unnamed this;
  set (mkParam r) val;;
  mret (mkParam r).

(** [Param(const std::string &n, T val)], lines 64-68. *)
Definition Param_named_value (n : string) (val : T) : M (Param T) :=
  r ← InternalParameter.create (type_of T) false 0 n true;
  check_name (mkParam r);;
  set (mkParam r) val;;
  mret (mkParam r).

(** [Param(T val, Expr min, Expr max)], lines 72-76. *)
Definition Param_value_range (this : N) (val : T) (min max : Expr) : M (Param T) :=
  r ← create_unnamed this;
  set_range (mkParam r) min max;;
  set (mkParam r) val;;
  mret (mkParam r).

(** [Param(const std::string &n, T val, Expr min, Expr max)], lines 80-85. *)
Definition Param_named_value_range (n : string) (val : T) (min max : Expr)
    : M (Param T) :=
  r ← InternalParameter.create (type_of T) false 0 n true;
  check_name (mkParam r);;
  set_range (mkParam r) min max;;
  set (mkParam r) val;;
  mret (mkParam r).

End ParamMethods.

(** [user_context_value()], lines 177-180. *)
Definition user_context_value : M Expr :=
  p ← InternalParameter.create Handle false 0 "__user_context" true;
  mret (Variable_make Handle "__user_context" p).

(** ** Reading a world *)

(** The record a handle refers to. *)
Definition record_of {T : Type} (p : Param T) (w : World) : option ParameterContents :=
  store w !! param p.

Definition live {T : Type} (p : Param T) (w : World) : Prop :=
  is_Some (record_of p w).

(** Running a computation: result and final world. *)
Definition result_of {A : Type} (m : M A) (w : World) : outcome A := fst (m w).
Definition world_after {A : Type} (m : M A) (w : World) : World := snd (m w).

(** ** Vocabulary of the statements *)

(** The world right after a record was created on top of [w]. *)
Definition created (w : World) (r : ParameterContents) : World :=
  {| store := store w ++ [r]; history := history w ++ [Created (length (store w))] |}.

(** The name kept for the implicit user context. *)
Definition reserved_name : string := "__user_context".

(** An outcome that is not a rejection of the name. *)
Definition name_accepted {A : Type} (o : outcome A) : Prop :=
  forall msg : string, o <> Raised (ReservedNameError msg).

(** The bound a setter hands to the record, given the tag the argument
    reports. *)
Definition stored_bound (T : Type) `{ScalarType T} (t : Type_) (e : Expr) : Expr :=
  if bool_decide (t ≠ type_of T) then Cast_make (type_of T) e else e.

(** The world of the example of the spec: one [Param<int32_t>] called
    "threshold", with value 5 and bounds 0 and 255. *)
Definition threshold : Param int32_t := mkParam 0%nat.

Definition threshold_world : World :=
  world_after
    (Param_named_value_range (T:=int32_t) None "threshold" (Int32 5)
       (IntImm 0) (IntImm 255))
    empty_world.

(** What the constructors with a value and bounds leave behind. *)
Definition bounded_record (T : Type) `{ScalarType T} (n : string) (explicit : bool)
    (val : T) (blo bhi : Expr) : ParameterContents :=
  InternalParameter.with_value (Some (to_slot val))
    (InternalParameter.with_max_value bhi
       (InternalParameter.with_min_value blo
          (InternalParameter.fresh_contents (type_of T) false 0 n explicit))).

Definition bounded_history (l : InternalParameter) (v : slot) (blo bhi : Expr)
    : list Event :=
  [Created l; MinValueSet l blo; MaxValueSet l bhi; ScalarSet l v].

(** Two calls of [user_context_value()], one after the other. *)
Definition user_context_value_twice : M (Expr * Expr) :=
  e1 ← user_context_value;
  e2 ← user_context_value;
  mret (e1, e2).

(** A new [Param<T>] called "p" whose lower (upper) bound is set to the
    undefined expression and read back. *)
Definition undefined_min_probe (T : Type) `{ScalarType T} (u : option Type_) : M Expr :=
  p ← Param_named (T:=T) "p";
  set_min_value u p Undefined;;
  get_min_value p.

Definition undefined_max_probe (T : Type) `{ScalarType T} (u : option Type_) : M Expr :=
  p ← Param_named (T:=T) "p";
  set_max_value u p Undefined;;
  get_max_value p.

(** A bound is in order for a record of tag [t] when it is unset or
    reports the tag [t]. *)
Definition bound_typed (u : option Type_) (t : Type_) (e : Expr) : Prop :=
  e = Undefined ∨ type_read u e = Some t.

Definition bounds_typed (u : option Type_) (t : Type_) (r : ParameterContents) : Prop :=
  bound_typed u t (pc_min_value r) ∧ bound_typed u t (pc_max_value r).

(** A computation that leaves the world as it found it, whatever it
    returns. *)
Definition read_only {A : Type} (m : M A) : Prop :=
  forall w : World, world_after m w = w.

(** Two records that agree on everything a constructor fixes: tag, flag,
    rank, name and explicit-name flag. *)
Definition same_identity (r r' : ParameterContents) : Prop :=
  pc_type r' = pc_type r ∧ pc_is_output r' = pc_is_output r ∧
  pc_dimensions r' = pc_dimensions r ∧ pc_name r' = pc_name r ∧
  pc_is_explicit_name r' = pc_is_explicit_name r.

(** [r'] is [r] after some bounds were set through a handle of type [T]:
    same identity, same value and default, and bounds still in order if they
    were. *)
Definition bounds_step (u : option Type_) (T : Type) `{ScalarType T}
    (r r' : ParameterContents) : Prop :=
  same_identity r r' ∧ pc_value r' = pc_value r ∧ pc_default r' = pc_default r ∧
  (bounds_typed u (type_of T) r -> bounds_typed u (type_of T) r').


(** A second handle, next to [threshold]: a [Param<uint8_t>] called "gain"
    with value 3. *)
Definition gain : Param uint8_t := mkParam 1%nat.

Definition two_params_world : World :=
  world_after (Param_named_value (T:=uint8_t) "gain" (UInt8 3)) threshold_world.


(** Everything the accessors of a handle show: name, explicit-name flag,
    value, lower and upper bound. *)
Definition observe {T : Type} `{ScalarType T} (p : Param T)
    : M (string * bool * option T * Expr * Expr) :=
  n ← name p;
  e ← is_explicit_name p;
  v ← get p;
  lo ← get_min_value p;
  hi ← get_max_value p;
  mret (n, e, v, lo, hi).

(** After [m], the handle [p] still has a record, with the identity of [r]
    and with bounds in order. *)
Definition keeps_record {T : Type} `{ScalarType T} {A : Type} (u : option Type_)
    (p : Param T) (r : ParameterContents) (m : M A) (w : World) : Prop :=
  exists r' : ParameterContents,
    record_of p (world_after m w) = Some r' ∧
    same_identity r r' ∧
    bounds_typed u (type_of T) r'.

(** * Properties *)

(** ** Running the monad *)

Lemma bind_ok {A B : Type} (m : M A) (f : A -> M B) (w w' : World) (a : A) :
  m w = (Ok a, w') -> (m ≫= f) w = f a w'.
Proof. intros E. unfold mbind, M_bind. by rewrite E. Qed.

Lemma bind_raised {A B : Type} (m : M A) (f : A -> M B) (w w' : World) (e : Error) :
  m w = (Raised e, w') -> (m ≫= f) w = (Raised e, w').
Proof. intros E. unfold mbind, M_bind. by rewrite E. Qed.

Lemma read_live {A : Type} (p : InternalParameter) (f : ParameterContents -> A)
    (w : World) (r : ParameterContents) :
  store w !! p = Some r -> InternalParameter.read p f w = (Ok (f r), w).
Proof. intros E. unfold InternalParameter.read. by rewrite E. Qed.

Lemma write_live (p : InternalParameter) (f : ParameterContents -> ParameterContents)
    (ev : Event) (w : World) (r : ParameterContents) :
  store w !! p = Some r ->
  InternalParameter.write p f ev w =
    (Ok tt, {| store := <[p := f r]> (store w); history := history w ++ [ev] |}).
Proof. intros E. unfold InternalParameter.write. by rewrite E. Qed.

Lemma create_run (t : Type_) (b : bool) (d : Z) (n : string) (e : bool) (w : World) :
  InternalParameter.create t b d n e w =
    (Ok (length (store w)), created w (InternalParameter.fresh_contents t b d n e)).
Proof. reflexivity. Qed.

Lemma lookup_newest {A : Type} (l : list A) (x : A) : (l ++ [x]) !! length l = Some x.
Proof. by apply list_lookup_middle. Qed.

Lemma insert_newest {A : Type} (l : list A) (x y : A) :
  <[length l := y]> (l ++ [x]) = l ++ [y].
Proof.
  rewrite insert_app_r_alt by lia. by rewrite Nat.sub_diag.
Qed.

(** Reading and writing the newest record of the store. *)
Lemma read_newest {A : Type} (f : ParameterContents -> A) (l : list ParameterContents)
    (r : ParameterContents) (h : list Event) :
  InternalParameter.read (length l) f {| store := l ++ [r]; history := h |} =
    (Ok (f r), {| store := l ++ [r]; history := h |}).
Proof. apply read_live. apply lookup_newest. Qed.

Lemma write_newest (f : ParameterContents -> ParameterContents) (ev : Event)
    (l : list ParameterContents) (r : ParameterContents) (h : list Event) :
  InternalParameter.write (length l) f ev {| store := l ++ [r]; history := h |} =
    (Ok tt, {| store := l ++ [f r]; history := h ++ [ev] |}).
Proof.
  rewrite (write_live _ _ _ _ r) by apply lookup_newest.
  simpl. by rewrite insert_newest.
Qed.

(** ** The reserved-name check *)

Lemma check_name_newest {T : Type} (l : list ParameterContents)
    (r : ParameterContents) (h : list Event) :
  check_name (T:=T) (mkParam (length l)) {| store := l ++ [r]; history := h |} =
    (if bool_decide (pc_name r ≠ reserved_name) then Ok tt
     else Raised (ReservedNameError check_name_message),
     {| store := l ++ [r]; history := h |}).
Proof.
  unfold check_name, InternalParameter.name; simpl.
  rewrite (bind_ok _ _ _ _ _ (read_newest pc_name l r h)).
  unfold user_assert, reserved_name. by case_bool_decide.
Qed.

Lemma check_name_created {T : Type} (t : Type_) (n : string) (w : World) :
  check_name (T:=T) (mkParam (length (store w)))
    (created w (InternalParameter.fresh_contents t false 0 n true)) =
    (if bool_decide (n ≠ reserved_name) then Ok tt
     else Raised (ReservedNameError check_name_message),
     created w (InternalParameter.fresh_contents t false 0 n true)).
Proof. unfold created. by rewrite check_name_newest. Qed.

(** Every name-accepting constructor starts the same way: create the record
    under the given name, then check the name. *)
Lemma named_prefix_rejected {T : Type} `{ScalarType T} {A : Type}
    (k : InternalParameter -> M A) (w : World) :
  (InternalParameter.create (type_of T) false 0 reserved_name true ≫= fun r =>
     check_name (T:=T) (mkParam r) ≫= fun _ => k r) w =
  (Raised (ReservedNameError check_name_message),
   created w (InternalParameter.fresh_contents (type_of T) false 0 reserved_name true)).
Proof.
  rewrite (bind_ok _ _ _ _ _ (create_run _ _ _ _ _ w)).
  apply bind_raised. by rewrite check_name_created.
Qed.

Lemma named_prefix_accepted {T : Type} `{ScalarType T} {A : Type} (n : string)
    (k : InternalParameter -> M A) (w : World) :
  n ≠ reserved_name ->
  (InternalParameter.create (type_of T) false 0 n true ≫= fun r =>
     check_name (T:=T) (mkParam r) ≫= fun _ => k r) w =
  k (length (store w))
    (created w (InternalParameter.fresh_contents (type_of T) false 0 n true)).
Proof.
  intros Hn.
  rewrite (bind_ok _ _ _ _ _ (create_run _ _ _ _ _ w)).
  erewrite bind_ok; [reflexivity |].
  rewrite check_name_created. by rewrite bool_decide_eq_true_2.
Qed.

(** ** Reads and writes through a live handle *)

Lemma lookup_after_insert (l : list ParameterContents) (p : nat)
    (r r' : ParameterContents) :
  l !! p = Some r -> <[p := r']> l !! p = Some r'.
Proof. intros E. apply list_lookup_insert_eq. by eapply lookup_lt_Some. Qed.

Lemma Expr_type_run (u : option Type_) (e : Expr) (t : Type_) (w : World) :
  type_read u e = Some t -> Expr_type u e w = (Ok t, w).
Proof. intros E. unfold Expr_type. by rewrite E. Qed.

Lemma Expr_type_fault (u : option Type_) (e : Expr) (w : World) :
  type_read u e = None -> Expr_type u e w = (Raised UndefinedExprError, w).
Proof. intros E. unfold Expr_type. by rewrite E. Qed.

Section LiveHandle.

Context {T : Type} `{ScalarType T}.
Variable u : option Type_.
Variables (p : Param T) (w : World) (r : ParameterContents).
Hypothesis Hlive : record_of p w = Some r.

Lemma set_run (v : T) :
  set p v w =
    (Ok tt, {| store := <[param p := InternalParameter.with_value (Some (to_slot v)) r]> (store w);
               history := history w ++ [ScalarSet (param p) (to_slot v)] |}).
Proof. unfold set, InternalParameter.set_scalar. by apply write_live. Qed.

Lemma get_run : get p w = (Ok (of_slot <$> pc_value r), w).
Proof.
  unfold get, InternalParameter.get_scalar.
  by rewrite (read_live _ _ _ r).
Qed.

Lemma set_min_value_run (e : Expr) (t : Type_) :
  type_read u e = Some t ->
  set_min_value u p e w =
    (Ok tt, {| store := <[param p := InternalParameter.with_min_value (stored_bound T t e) r]> (store w);
               history := history w ++ [MinValueSet (param p) (stored_bound T t e)] |}).
Proof.
  intros Et. unfold set_min_value.
  rewrite (bind_ok _ _ _ _ _ (Expr_type_run u e t w Et)).
  unfold InternalParameter.set_min_value. by apply write_live.
Qed.

Lemma set_max_value_run (e : Expr) (t : Type_) :
  type_read u e = Some t ->
  set_max_value u p e w =
    (Ok tt, {| store := <[param p := InternalParameter.with_max_value (stored_bound T t e) r]> (store w);
               history := history w ++ [MaxValueSet (param p) (stored_bound T t e)] |}).
Proof.
  intros Et. unfold set_max_value.
  rewrite (bind_ok _ _ _ _ _ (Expr_type_run u e t w Et)).
  unfold InternalParameter.set_max_value. by apply write_live.
Qed.

Lemma get_min_value_run : get_min_value p w = (Ok (pc_min_value r), w).
Proof. unfold get_min_value, InternalParameter.get_min_value. by apply read_live. Qed.

Lemma get_max_value_run : get_max_value p w = (Ok (pc_max_value r), w).
Proof. unfold get_max_value, InternalParameter.get_max_value. by apply read_live. Qed.

Lemma name_run : name p w = (Ok (pc_name r), w).
Proof. unfold name, InternalParameter.name. by apply read_live. Qed.

Lemma to_Expr_run :
  to_Expr p w = (Ok (VariableNode (type_of T) (pc_name r) (param p)), w).
Proof. unfold to_Expr. by rewrite (bind_ok _ _ _ _ _ name_run). Qed.

End LiveHandle.

(** A setter never faults on an argument whose tag can be read, and a
    faulting type query leaves the world alone. *)
Lemma set_min_value_fault {T : Type} `{ScalarType T} (u : option Type_)
    (p : Param T) (e : Expr) (w : World) :
  type_read u e = None -> set_min_value u p e w = (Raised UndefinedExprError, w).
Proof.
  intros E. unfold set_min_value. apply bind_raised. by apply Expr_type_fault.
Qed.

Lemma set_max_value_fault {T : Type} `{ScalarType T} (u : option Type_)
    (p : Param T) (e : Expr) (w : World) :
  type_read u e = None -> set_max_value u p e w = (Raised UndefinedExprError, w).
Proof.
  intros E. unfold set_max_value. apply bind_raised. by apply Expr_type_fault.
Qed.

Lemma stored_bound_mismatch {T : Type} `{ScalarType T} (t : Type_) (e : Expr) :
  t ≠ type_of T -> stored_bound T t e = CastNode (type_of T) e.
Proof. intros Hne. unfold stored_bound. by rewrite bool_decide_eq_true_2. Qed.

Lemma stored_bound_match {T : Type} `{ScalarType T} (t : Type_) (e : Expr) :
  t = type_of T -> stored_bound T t e = e.
Proof.
  intros ->. unfold stored_bound. rewrite bool_decide_eq_false_2; [done | tauto].
Qed.

Lemma stored_bound_type {T : Type} `{ScalarType T} (u : option Type_)
    (t : Type_) (e : Expr) :
  type_read u e = Some t -> type_read u (stored_bound T t e) = Some (type_of T).
Proof.
  intros Et. destruct (decide (t = type_of T)) as [E | E].
  - rewrite stored_bound_match by done. by rewrite Et, E.
  - by rewrite stored_bound_mismatch.
Qed.

Lemma record_after_write {T : Type} (p : Param T) (w : World)
    (r r' : ParameterContents) (h : list Event) :
  record_of p w = Some r ->
  record_of p {| store := <[param p := r']> (store w); history := h |} = Some r'.
Proof. unfold record_of; simpl. apply lookup_after_insert. Qed.

Lemma set_then_get_min {T : Type} `{ScalarType T} (u : option Type_)
    (p : Param T) (e : Expr) (t : Type_) (w : World) :
  live p w -> type_read u e = Some t ->
  result_of (set_min_value u p e;; get_min_value p) w = Ok (stored_bound T t e).
Proof.
  intros [r Hr] Et. unfold result_of.
  rewrite (bind_ok _ _ _ _ _ (set_min_value_run u p w r Hr e t Et)).
  by rewrite (get_min_value_run p _ _ (record_after_write p w r _ _ Hr)).
Qed.

Lemma set_then_get_max {T : Type} `{ScalarType T} (u : option Type_)
    (p : Param T) (e : Expr) (t : Type_) (w : World) :
  live p w -> type_read u e = Some t ->
  result_of (set_max_value u p e;; get_max_value p) w = Ok (stored_bound T t e).
Proof.
  intros [r Hr] Et. unfold result_of.
  rewrite (bind_ok _ _ _ _ _ (set_max_value_run u p w r Hr e t Et)).
  by rewrite (get_max_value_run p _ _ (record_after_write p w r _ _ Hr)).
Qed.

Lemma set_then_type_min {T : Type} `{ScalarType T} (u : option Type_)
    (p : Param T) (e : Expr) (t : Type_) (w : World) :
  live p w -> type_read u e = Some t ->
  result_of (set_min_value u p e;; b ← get_min_value p; Expr_type u b) w =
    Ok (type_of T).
Proof.
  intros [r Hr] Et. unfold result_of.
  rewrite (bind_ok _ _ _ _ _ (set_min_value_run u p w r Hr e t Et)).
  rewrite (bind_ok _ _ _ _ _
             (get_min_value_run p _ _ (record_after_write p w r _ _ Hr))).
  simpl. by rewrite (Expr_type_run u _ (type_of T)) by by apply stored_bound_type.
Qed.

Lemma set_then_type_max {T : Type} `{ScalarType T} (u : option Type_)
    (p : Param T) (e : Expr) (t : Type_) (w : World) :
  live p w -> type_read u e = Some t ->
  result_of (set_max_value u p e;; b ← get_max_value p; Expr_type u b) w =
    Ok (type_of T).
Proof.
  intros [r Hr] Et. unfold result_of.
  rewrite (bind_ok _ _ _ _ _ (set_max_value_run u p w r Hr e t Et)).
  rewrite (bind_ok _ _ _ _ _
             (get_max_value_run p _ _ (record_after_write p w r _ _ Hr))).
  simpl. by rewrite (Expr_type_run u _ (type_of T)) by by apply stored_bound_type.
Qed.

Lemma set_range_history {T : Type} `{ScalarType T} (u : option Type_)
    (p : Param T) (lo hi : Expr) (tlo thi : Type_) (w : World) :
  live p w ->
  type_read u lo = Some tlo ->
  type_read u hi = Some thi ->
  result_of (set_range u p lo hi) w = Ok tt ∧
  history (world_after (set_range u p lo hi) w) =
    history w ++ [MinValueSet (param p) (stored_bound T tlo lo);
                  MaxValueSet (param p) (stored_bound T thi hi)].
Proof.
  intros [r Hr] Elo Ehi. unfold result_of, world_after, set_range.
  rewrite (bind_ok _ _ _ _ _ (set_min_value_run u p w r Hr lo tlo Elo)).
  rewrite (set_max_value_run u p _ _ (record_after_write p w r _ _ Hr) hi thi Ehi).
  simpl. by rewrite <- app_assoc.
Qed.

(** C2: for a handle of type [T] and an expression [e] that reports the tag
    [t], [set_min_value] and [set_max_value] never raise; when [t] differs
    from the tag of [T] the bound read back is [e] under exactly one cast
    node to the tag of [T], when [t] is the tag of [T] the bound read back
    is [e] itself, and in both cases the type of the bound read back is the
    tag of [T]. *)
Theorem bound_setters_coerce {T : Type} `{ScalarType T} (u : option Type_)
    (p : Param T) (e : Expr) (t : Type_) (w : World) :
  live p w ->
  type_read u e = Some t ->
  (result_of (set_min_value u p e) w = Ok tt ∧
   result_of (set_max_value u p e) w = Ok tt) ∧
  (t ≠ type_of T ->
   result_of (set_min_value u p e;; get_min_value p) w = Ok (CastNode (type_of T) e) ∧
   result_of (set_max_value u p e;; get_max_value p) w = Ok (CastNode (type_of T) e)) ∧
  (t = type_of T ->
   result_of (set_min_value u p e;; get_min_value p) w = Ok e ∧
   result_of (set_max_value u p e;; get_max_value p) w = Ok e) ∧
  result_of (set_min_value u p e;; b ← get_min_value p; Expr_type u b) w = Ok (type_of T) ∧
  result_of (set_max_value u p e;; b ← get_max_value p; Expr_type u b) w = Ok (type_of T).
Proof.
  intros Hp Et. repeat split.
  - destruct Hp as [r Hr]. unfold result_of.
    by rewrite (set_min_value_run u p w r Hr e t Et).
  - destruct Hp as [r Hr]. unfold result_of.
    by rewrite (set_max_value_run u p w r Hr e t Et).
  - rewrite (set_then_get_min u p e t w Hp Et). by rewrite stored_bound_mismatch.
  - rewrite (set_then_get_max u p e t w Hp Et). by rewrite stored_bound_mismatch.
  - rewrite (set_then_get_min u p e t w Hp Et). by rewrite stored_bound_match.
  - rewrite (set_then_get_max u p e t w Hp Et). by rewrite stored_bound_match.
  - by apply (set_then_type_min u p e t).
  - by apply (set_then_type_max u p e t).
Qed.

Lemma threshold_live : live threshold threshold_world.
Proof. eexists. reflexivity. Defined.

Lemma bound_setters_coerce_witness :
  result_of (set_min_value None threshold (FloatImm 0);; get_min_value threshold)
    threshold_world = Ok (CastNode (Int 32) (FloatImm 0)) ∧
  result_of (set_max_value None threshold (IntImm 9);; get_max_value threshold)
    threshold_world = Ok (IntImm 9).
Proof.
  split.
  - destruct (bound_setters_coerce None threshold (FloatImm 0) (Float 32)
                threshold_world threshold_live eq_refl) as (_ & Hne & _).
    apply Hne. discriminate.
  - destruct (bound_setters_coerce None threshold (IntImm 9) (Int 32)
                threshold_world threshold_live eq_refl) as (_ & _ & Heq & _).
    apply Heq. reflexivity.
Defined.

(** ** Values *)

Lemma set_then_get {T : Type} `{ScalarType T} (p : Param T) (v : T)
    (w : World) (r : ParameterContents) :
  record_of p w = Some r ->
  result_of (set p v;; get p) w = Ok (Some v).
Proof.
  intros Hr. unfold result_of.
  rewrite (bind_ok _ _ _ _ _ (set_run p w r Hr v)).
  rewrite (get_run p _ _ (record_after_write p w r _ _ Hr)); simpl.
  by rewrite of_to_slot.
Qed.

(** C4: for a handle [p] of type [T] and any value [v] of type [T],
    whatever bounds the record of [p] holds, [p.set(v)] succeeds, touches
    nothing of the record but its value, and [p.get()] afterwards returns
    [v]. *)
Theorem set_get_roundtrip {T : Type} `{ScalarType T} (p : Param T) (v : T)
    (w : World) (r : ParameterContents) :
  record_of p w = Some r ->
  result_of (set p v) w = Ok tt ∧
  record_of p (world_after (set p v) w) =
    Some (InternalParameter.with_value (Some (to_slot v)) r) ∧
  result_of (set p v;; get p) w = Ok (Some v).
Proof.
  intros Hr. split; [| split].
  - unfold result_of. by rewrite (set_run p w r Hr v).
  - unfold world_after. rewrite (set_run p w r Hr v); simpl.
    by apply (record_after_write p w r).
  - by apply (set_then_get p v w r).
Qed.

Lemma set_get_roundtrip_witness :
  result_of (set threshold (Int32 1000);; get threshold) threshold_world =
    Ok (Some (Int32 1000)).
Proof.
  apply (set_get_roundtrip threshold (Int32 1000) threshold_world
           (InternalParameter.with_value (Some 5)
              (InternalParameter.with_max_value (IntImm 255)
                 (InternalParameter.with_min_value (IntImm 0)
                    (InternalParameter.fresh_contents (Int 32) false 0 "threshold" true))))
           eq_refl).
Defined.

(** ** Copies *)

(** C5: a copy [q] of a handle [p] holds the reference of [p]: a value set
    through [q] is the value [p.get()] returns, and the expression forms of
    [p] and [q] are variable nodes over one and the same record. *)
Theorem copy_shares_record {T : Type} `{ScalarType T} (p q : Param T) (v : T)
    (w : World) :
  q = copy p ->
  live p w ->
  result_of (set q v;; get p) w = Ok (Some v) ∧
  exists (ep eq : Expr),
    result_of (to_Expr p) w = Ok ep ∧
    result_of (to_Expr q) w = Ok eq ∧
    backing_record ep = Some (param p) ∧
    backing_record eq = Some (param p).
Proof.
  intros -> [r Hr]. split.
  - destruct p as [l]. by apply (set_then_get (mkParam l) v w r).
  - exists (VariableNode (type_of T) (pc_name r) (param p)),
           (VariableNode (type_of T) (pc_name r) (param p)).
    unfold result_of.
    rewrite (to_Expr_run p w r Hr).
    assert (Hq : record_of (copy p) w = Some r) by done.
    by rewrite (to_Expr_run (copy p) w r Hq).
Qed.

Lemma copy_shares_record_witness :
  result_of (set (copy threshold) (Int32 7);; get threshold) threshold_world =
    Ok (Some (Int32 7)).
Proof.
  apply (copy_shares_record threshold (copy threshold) (Int32 7) threshold_world
           eq_refl threshold_live).
Defined.

(** ** Signature arguments *)

(** C7: the signature argument of a handle of type [T] carries the name of
    the record, the kind [InputScalar], the tag of [T], rank 0, the scalar
    expression of the record and its stored bounds; the conversion changes
    nothing. *)
Theorem to_Argument_fields {T : Type} `{ScalarType T}
    (view : ParameterContents -> Expr) (p : Param T) (w : World)
    (r : ParameterContents) :
  record_of p w = Some r ->
  to_Argument view p w =
    (Ok {| arg_name := pc_name r; arg_kind := InputScalar;
           arg_type := type_of T; arg_dimensions := 0;
           arg_def := view r;
           arg_min := pc_min_value r; arg_max := pc_max_value r |}, w) ∧
  result_of (name p) w = Ok (pc_name r) ∧
  result_of (InternalParameter.get_scalar_expr view (param p)) w = Ok (view r) ∧
  result_of (get_min_value p) w = Ok (pc_min_value r) ∧
  result_of (get_max_value p) w = Ok (pc_max_value r).
Proof.
  intros Hr. unfold result_of.
  rewrite (name_run p w r Hr), (get_min_value_run p w r Hr),
    (get_max_value_run p w r Hr).
  unfold InternalParameter.get_scalar_expr.
  rewrite (read_live _ view w r Hr).
  repeat split. unfold to_Argument.
  rewrite (bind_ok _ _ _ _ _ (name_run p w r Hr)).
  unfold InternalParameter.get_scalar_expr.
  rewrite (bind_ok _ _ _ _ _ (read_live _ view w r Hr)).
  rewrite (bind_ok _ _ _ _ _ (get_min_value_run p w r Hr)).
  by rewrite (bind_ok _ _ _ _ _ (get_max_value_run p w r Hr)).
Qed.

Lemma to_Argument_fields_witness :
  result_of (to_Argument (fun _ => Undefined) threshold) threshold_world =
    Ok {| arg_name := "threshold"; arg_kind := InputScalar;
          arg_type := Int 32; arg_dimensions := 0; arg_def := Undefined;
          arg_min := IntImm 0; arg_max := IntImm 255 |}.
Proof.
  unfold result_of.
  rewrite (proj1 (to_Argument_fields (fun _ => Undefined) threshold threshold_world
    (InternalParameter.with_value (Some 5)
       (InternalParameter.with_max_value (IntImm 255)
          (InternalParameter.with_min_value (IntImm 0)
             (InternalParameter.fresh_contents (Int 32) false 0 "threshold" true))))
    eq_refl)).
  reflexivity.
Defined.

(** ** Constructors *)

(** The setters on the newest record of the store. *)
Section NewestRecord.

Context {T : Type} `{ScalarType T}.
Variable u : option Type_.

Lemma set_newest (l : list ParameterContents) (r : ParameterContents)
    (h : list Event) (v : T) :
  set (mkParam (length l)) v {| store := l ++ [r]; history := h |} =
    (Ok tt, {| store := l ++ [InternalParameter.with_value (Some (to_slot v)) r];
               history := h ++ [ScalarSet (length l) (to_slot v)] |}).
Proof. unfold set, InternalParameter.set_scalar; simpl. apply write_newest. Qed.

Lemma set_min_value_newest (l : list ParameterContents) (r : ParameterContents)
    (h : list Event) (e : Expr) (t : Type_) :
  type_read u e = Some t ->
  set_min_value u (mkParam (T:=T) (length l)) e {| store := l ++ [r]; history := h |} =
    (Ok tt, {| store := l ++ [InternalParameter.with_min_value (stored_bound T t e) r];
               history := h ++ [MinValueSet (length l) (stored_bound T t e)] |}).
Proof.
  intros Et. unfold set_min_value.
  rewrite (bind_ok _ _ _ _ _ (Expr_type_run u e t _ Et)).
  unfold InternalParameter.set_min_value; simpl. apply write_newest.
Qed.

Lemma set_max_value_newest (l : list ParameterContents) (r : ParameterContents)
    (h : list Event) (e : Expr) (t : Type_) :
  type_read u e = Some t ->
  set_max_value u (mkParam (T:=T) (length l)) e {| store := l ++ [r]; history := h |} =
    (Ok tt, {| store := l ++ [InternalParameter.with_max_value (stored_bound T t e) r];
               history := h ++ [MaxValueSet (length l) (stored_bound T t e)] |}).
Proof.
  intros Et. unfold set_max_value.
  rewrite (bind_ok _ _ _ _ _ (Expr_type_run u e t _ Et)).
  unfold InternalParameter.set_max_value; simpl. apply write_newest.
Qed.

Lemma set_range_newest (l : list ParameterContents) (r : ParameterContents)
    (h : list Event) (lo hi : Expr) (tlo thi : Type_) :
  type_read u lo = Some tlo ->
  type_read u hi = Some thi ->
  set_range u (mkParam (T:=T) (length l)) lo hi {| store := l ++ [r]; history := h |} =
    (Ok tt,
     {| store := l ++ [InternalParameter.with_max_value (stored_bound T thi hi)
                         (InternalParameter.with_min_value (stored_bound T tlo lo) r)];
        history := h ++ [MinValueSet (length l) (stored_bound T tlo lo);
                         MaxValueSet (length l) (stored_bound T thi hi)] |}).
Proof.
  intros Elo Ehi. unfold set_range.
  rewrite (bind_ok _ _ _ _ _ (set_min_value_newest l r h lo tlo Elo)).
  rewrite (set_max_value_newest l _ _ hi thi Ehi).
  by rewrite <- app_assoc.
Qed.

(** A range setter either succeeds or stops on an argument whose type
    cannot be read; it raises nothing else. *)
Lemma set_range_newest_outcome (l : list ParameterContents)
    (r : ParameterContents) (h : list Event) (lo hi : Expr) :
  let o := result_of (set_range u (mkParam (T:=T) (length l)) lo hi)
             {| store := l ++ [r]; history := h |} in
  o = Ok tt ∨ o = Raised UndefinedExprError.
Proof.
  unfold result_of.
  destruct (type_read u lo) as [tlo |] eqn:Elo.
  - destruct (type_read u hi) as [thi |] eqn:Ehi.
    + left. by rewrite (set_range_newest l r h lo hi tlo thi Elo Ehi).
    + right. unfold set_range.
      rewrite (bind_ok _ _ _ _ _ (set_min_value_newest l r h lo tlo Elo)).
      by rewrite set_max_value_fault.
  - right. unfold set_range.
    by rewrite (bind_raised _ _ _ _ _ (set_min_value_fault u _ lo _ Elo)).
Qed.

End NewestRecord.

Section ConstructorRuns.

Context {T : Type} `{ScalarType T}.
Variable u : option Type_.
Variable mk : N -> string -> ascii -> string.

Lemma Param_named_run (n : string) (w : World) :
  n ≠ reserved_name ->
  Param_named (T:=T) n w =
    (Ok (mkParam (length (store w))),
     created w (InternalParameter.fresh_contents (type_of T) false 0 n true)).
Proof.
  intros Hn. unfold Param_named.
  by rewrite (named_prefix_accepted n (fun r => mret (mkParam r)) w Hn).
Qed.

Lemma Param_named_cstr_run (n : string) (w : World) :
  n ≠ reserved_name ->
  Param_named_cstr (T:=T) n w =
    (Ok (mkParam (length (store w))),
     created w (InternalParameter.fresh_contents (type_of T) false 0 n true)).
Proof.
  intros Hn. unfold Param_named_cstr.
  by rewrite (named_prefix_accepted n (fun r => mret (mkParam r)) w Hn).
Qed.

Lemma Param_named_value_run (n : string) (val : T) (w : World) :
  n ≠ reserved_name ->
  Param_named_value n val w =
    (Ok (mkParam (length (store w))),
     {| store := store w ++
          [InternalParameter.with_value (Some (to_slot val))
             (InternalParameter.fresh_contents (type_of T) false 0 n true)];
        history := history w ++
          [Created (length (store w)); ScalarSet (length (store w)) (to_slot val)] |}).
Proof.
  intros Hn. unfold Param_named_value.
  rewrite (named_prefix_accepted n
             (fun r => set (mkParam r) val;; mret (mkParam r)) w Hn).
  unfold created. rewrite (bind_ok _ _ _ _ _ (set_newest _ _ _ val)).
  by rewrite <- app_assoc.
Qed.

Lemma Param_value_range_run (this : N) (val : T) (lo hi : Expr)
    (tlo thi : Type_) (w : World) :
  type_read u lo = Some tlo ->
  type_read u hi = Some thi ->
  Param_value_range u mk this val lo hi w =
    (Ok (mkParam (length (store w))),
     {| store := store w ++
          [bounded_record T (mk this "Halide::Param<?" "p"%char) false val
             (stored_bound T tlo lo) (stored_bound T thi hi)];
        history := history w ++
          bounded_history (length (store w)) (to_slot val)
            (stored_bound T tlo lo) (stored_bound T thi hi) |}).
Proof.
  intros Elo Ehi. unfold Param_value_range, create_unnamed.
  rewrite (bind_ok _ _ _ _ _ (create_run _ _ _ _ _ w)). unfold created.
  rewrite (bind_ok _ _ _ _ _ (set_range_newest u _ _ _ lo hi tlo thi Elo Ehi)).
  rewrite (bind_ok _ _ _ _ _ (set_newest _ _ _ val)).
  by rewrite <- !app_assoc.
Qed.

Lemma Param_named_value_range_run (n : string) (val : T) (lo hi : Expr)
    (tlo thi : Type_) (w : World) :
  n ≠ reserved_name ->
  type_read u lo = Some tlo ->
  type_read u hi = Some thi ->
  Param_named_value_range u n val lo hi w =
    (Ok (mkParam (length (store w))),
     {| store := store w ++
          [bounded_record T n true val
             (stored_bound T tlo lo) (stored_bound T thi hi)];
        history := history w ++
          bounded_history (length (store w)) (to_slot val)
            (stored_bound T tlo lo) (stored_bound T thi hi) |}).
Proof.
  intros Hn Elo Ehi. unfold Param_named_value_range.
  rewrite (named_prefix_accepted n
             (fun r => set_range u (mkParam r) lo hi;;
                       set (mkParam r) val;; mret (mkParam r)) w Hn).
  unfold created.
  rewrite (bind_ok _ _ _ _ _ (set_range_newest u _ _ _ lo hi tlo thi Elo Ehi)).
  rewrite (bind_ok _ _ _ _ _ (set_newest _ _ _ val)).
  by rewrite <- !app_assoc.
Qed.

Lemma Param_named_value_range_accepted (n : string) (val : T) (lo hi : Expr)
    (w : World) :
  n ≠ reserved_name ->
  name_accepted (result_of (Param_named_value_range u n val lo hi) w).
Proof.
  intros Hn msg. unfold result_of, Param_named_value_range.
  rewrite (named_prefix_accepted n
             (fun r => set_range u (mkParam r) lo hi;;
                       set (mkParam r) val;; mret (mkParam r)) w Hn).
  unfold created.
  pose proof (set_range_newest_outcome (T:=T) u (store w)
                (InternalParameter.fresh_contents (type_of T) false 0 n true)
                (history w ++ [Created (length (store w))]) lo hi) as Ho.
  simpl in Ho. unfold result_of in Ho.
  destruct (set_range u (mkParam (T:=T) (length (store w))) lo hi _)
    as [[[] | e] [l' h']] eqn:Er; simpl in Ho.
  - rewrite (bind_ok _ _ _ _ _ Er).
    destruct Ho as [_ | Ho]; [| discriminate].
    unfold mbind, M_bind.
    destruct (set (mkParam (length (store w))) val _) as [[[] | e'] wf] eqn:Es.
    + discriminate.
    + unfold set, InternalParameter.set_scalar, InternalParameter.write in Es.
      destruct (store _ !! _); simplify_eq. simpl. discriminate.
  - rewrite (bind_raised _ _ _ _ _ Er).
    destruct Ho as [Ho | Ho]; [discriminate |]. by simplify_eq.
Qed.

End ConstructorRuns.

(** C1: every constructor that takes a name ([std::string] or C string
    alone, with a value, with a value and bounds) raises
    [ReservedNameError] on the name "__user_context"; the message says what
    the identifier used to control and names both replacements
    ([set_custom_user_context()] when jitting, [Target::UserContext] when
    compiling ahead of time); any other name passes the check. *)
Theorem reserved_name_rejected {T : Type} `{ScalarType T} (u : option Type_)
    (n : string) (val : T) (lo hi : Expr) (w : World) :
  (n = "__user_context" ->
   result_of (Param_named (T:=T) n) w = Raised (ReservedNameError check_name_message) ∧
   result_of (Param_named_cstr (T:=T) n) w = Raised (ReservedNameError check_name_message) ∧
   result_of (Param_named_value n val) w = Raised (ReservedNameError check_name_message) ∧
   result_of (Param_named_value_range u n val lo hi) w =
     Raised (ReservedNameError check_name_message)) ∧
  (contains
     "is no longer used to control whether Halide functions take explicit user_context arguments"
     check_name_message = true ∧
   contains "Use set_custom_user_context() when jitting" check_name_message = true ∧
   contains
     "add Target::UserContext to the Target feature set when compiling ahead of time"
     check_name_message = true) ∧
  (n ≠ "__user_context" ->
   result_of (Param_named (T:=T) n) w = Ok (mkParam (length (store w))) ∧
   result_of (Param_named_cstr (T:=T) n) w = Ok (mkParam (length (store w))) ∧
   result_of (Param_named_value n val) w = Ok (mkParam (length (store w))) ∧
   name_accepted (result_of (Param_named_value_range u n val lo hi) w) ∧
   (is_Some (type_read u lo) -> is_Some (type_read u hi) ->
    result_of (Param_named_value_range u n val lo hi) w =
      Ok (mkParam (length (store w))))).
Proof.
  split; [| split].
  - intros ->. unfold result_of.
    unfold Param_named, Param_named_cstr, Param_named_value, Param_named_value_range.
    rewrite !(named_prefix_rejected (T:=T) (fun r => mret (mkParam r))).
    rewrite (named_prefix_rejected (T:=T)
               (fun r => set (mkParam r) val;; mret (mkParam r))).
    by rewrite (named_prefix_rejected (T:=T)
               (fun r => set_range u (mkParam r) lo hi;;
                         set (mkParam r) val;; mret (mkParam r))).
  - by vm_compute.
  - intros Hn. unfold result_of.
    rewrite (Param_named_run n w Hn), (Param_named_cstr_run n w Hn),
      (Param_named_value_run n val w Hn).
    repeat split.
    + by apply Param_named_value_range_accepted.
    + intros [tlo Elo] [thi Ehi].
      by rewrite (Param_named_value_range_run u n val lo hi tlo thi w Hn Elo Ehi).
Qed.

Lemma reserved_name_rejected_witness :
  result_of (Param_named (T:=void_ptr) "__user_context") empty_world =
    Raised (ReservedNameError check_name_message) ∧
  result_of (Param_named_value "threshold" (Int32 5)) empty_world =
    Ok (mkParam 0%nat).
Proof.
  split.
  - destruct (reserved_name_rejected (T:=void_ptr) None "__user_context"
                (VoidPtr 0) Undefined Undefined empty_world) as (Hrej & _).
    apply Hrej. reflexivity.
  - destruct (reserved_name_rejected (T:=int32_t) None "threshold"
                (Int32 5) Undefined Undefined empty_world) as (_ & _ & Hacc).
    apply Hacc. discriminate.
Defined.

(** C8: the constructors that take a name and a value, or a name, a value
    and bounds, check the name before they write anything: on
    "__user_context" they raise [ReservedNameError] in the world where the
    new record has just been created, with no value, no default and no
    bounds, and where nothing but the creation has been recorded. *)
Theorem rejected_name_writes_nothing {T : Type} `{ScalarType T} (u : option Type_)
    (val : T) (lo hi : Expr) (w : World) :
  Param_named_value "__user_context" val w =
    (Raised (ReservedNameError check_name_message),
     {| store := store w ++
          [ {| pc_type := type_of T; pc_is_output := false; pc_dimensions := 0;
               pc_name := "__user_context"; pc_is_explicit_name := true;
               pc_value := None; pc_default := None;
               pc_min_value := Undefined; pc_max_value := Undefined |} ];
        history := history w ++ [Created (length (store w))] |}) ∧
  Param_named_value_range u "__user_context" val lo hi w =
    Param_named_value "__user_context" val w.
Proof.
  unfold Param_named_value, Param_named_value_range.
  rewrite (named_prefix_rejected (T:=T)
             (fun r => set (mkParam r) val;; mret (mkParam r))).
  by rewrite (named_prefix_rejected (T:=T)
             (fun r => set_range u (mkParam r) lo hi;;
                       set (mkParam r) val;; mret (mkParam r))).
Qed.

Lemma bounds_then_value_readable {T : Type} `{ScalarType T} (u : option Type_)
    (mk : N -> string -> ascii -> string) (this : N) (n : string) (val : T)
    (lo hi : Expr) (tlo thi : Type_) (w : World) :
  type_read u lo = Some tlo ->
  type_read u hi = Some thi ->
  n ≠ reserved_name ->
  (forall (q : Param T) (w0 : World),
     live q w0 ->
     history (world_after (set_range u q lo hi) w0) =
       history w0 ++ [MinValueSet (param q) (stored_bound T tlo lo);
                      MaxValueSet (param q) (stored_bound T thi hi)]) ∧
  history (world_after (Param_value_range u mk this val lo hi) w) =
    history w ++ [Created (length (store w));
                  MinValueSet (length (store w)) (stored_bound T tlo lo);
                  MaxValueSet (length (store w)) (stored_bound T thi hi);
                  ScalarSet (length (store w)) (to_slot val)] ∧
  history (world_after (Param_named_value_range u n val lo hi) w) =
    history w ++ [Created (length (store w));
                  MinValueSet (length (store w)) (stored_bound T tlo lo);
                  MaxValueSet (length (store w)) (stored_bound T thi hi);
                  ScalarSet (length (store w)) (to_slot val)] ∧
  (let before_set :=
     world_after (r ← create_unnamed mk this; set_range u (mkParam (T:=T) r) lo hi) w in
   Param_value_range u mk this val lo hi w =
     (set (mkParam (length (store w))) val;; mret (mkParam (length (store w))))
       before_set ∧
   (pc_value <$> store before_set !! length (store w)) = Some None ∧
   (pc_min_value <$> store before_set !! length (store w)) =
     Some (stored_bound T tlo lo) ∧
   (pc_max_value <$> store before_set !! length (store w)) =
     Some (stored_bound T thi hi)) ∧
  (let before_set :=
     world_after (r ← InternalParameter.create (type_of T) false 0 n true;
                  check_name (T:=T) (mkParam r);;
                  set_range u (mkParam (T:=T) r) lo hi) w in
   Param_named_value_range u n val lo hi w =
     (set (mkParam (length (store w))) val;; mret (mkParam (length (store w))))
       before_set ∧
   (pc_value <$> store before_set !! length (store w)) = Some None ∧
   (pc_min_value <$> store before_set !! length (store w)) =
     Some (stored_bound T tlo lo) ∧
   (pc_max_value <$> store before_set !! length (store w)) =
     Some (stored_bound T thi hi)).
Proof.
  intros Elo Ehi Hn. split; [| split; [| split; [| split]]].
  - intros q w0 Hq. by apply (set_range_history u q lo hi tlo thi w0 Hq Elo Ehi).
  - unfold world_after.
    by rewrite (Param_value_range_run u mk this val lo hi tlo thi w Elo Ehi).
  - unfold world_after.
    by rewrite (Param_named_value_range_run u n val lo hi tlo thi w Hn Elo Ehi).
  - simpl. unfold world_after, create_unnamed.
    rewrite (bind_ok _ _ _ _ _ (create_run _ _ _ _ _ w)). unfold created.
    rewrite (set_range_newest u _ _ _ lo hi tlo thi Elo Ehi). simpl.
    rewrite lookup_newest. split; [| done].
    rewrite (Param_value_range_run u mk this val lo hi tlo thi w Elo Ehi).
    rewrite (bind_ok _ _ _ _ _ (set_newest _ _ _ val)).
    unfold bounded_history. by rewrite <- !app_assoc.
  - simpl. unfold world_after.
    rewrite (named_prefix_accepted (T:=T) n
               (fun r => set_range u (mkParam (T:=T) r) lo hi) w Hn).
    unfold created.
    rewrite (set_range_newest u _ _ _ lo hi tlo thi Elo Ehi). simpl.
    rewrite lookup_newest. split; [| done].
    rewrite (Param_named_value_range_run u n val lo hi tlo thi w Hn Elo Ehi).
    rewrite (bind_ok _ _ _ _ _ (set_newest _ _ _ val)).
    unfold bounded_history. by rewrite <- !app_assoc.
Qed.

Lemma set_range_newest_fault {T : Type} `{ScalarType T} (u : option Type_)
    (l : list ParameterContents) (r : ParameterContents) (h : list Event)
    (lo hi : Expr) :
  type_read u lo = None ∨ type_read u hi = None ->
  exists (r' : ParameterContents) (h' : list Event),
    set_range u (mkParam (T:=T) (length l)) lo hi {| store := l ++ [r]; history := h |} =
      (Raised UndefinedExprError, {| store := l ++ [r']; history := h' |}) ∧
    pc_value r' = pc_value r.
Proof.
  intros Hbad. unfold set_range.
  destruct (type_read u lo) as [tlo |] eqn:Elo.
  - destruct Hbad as [? | Ehi]; [done |].
    eexists _, _.
    rewrite (bind_ok _ _ _ _ _ (set_min_value_newest u l r h lo tlo Elo)).
    by rewrite (set_max_value_fault u _ hi _ Ehi).
  - exists r, h.
    by rewrite (bind_raised _ _ _ _ _ (set_min_value_fault u _ lo _ Elo)).
Qed.

Lemma value_absent_on_unreadable_bound {T : Type} `{ScalarType T} (u : option Type_)
    (mk : N -> string -> ascii -> string) (this : N) (n : string) (val : T)
    (lo hi : Expr) (w : World) :
  n ≠ reserved_name ->
  type_read u lo = None ∨ type_read u hi = None ->
  (result_of (Param_value_range u mk this val lo hi) w = Raised UndefinedExprError ∧
   (pc_value <$> store (world_after (Param_value_range u mk this val lo hi) w)
                   !! length (store w)) = Some None) ∧
  (result_of (Param_named_value_range u n val lo hi) w = Raised UndefinedExprError ∧
   (pc_value <$> store (world_after (Param_named_value_range u n val lo hi) w)
                   !! length (store w)) = Some None).
Proof.
  intros Hn Hbad. unfold result_of, world_after. split.
  - unfold Param_value_range, create_unnamed.
    rewrite (bind_ok _ _ _ _ _ (create_run _ _ _ _ _ w)). unfold created.
    destruct (set_range_newest_fault (T:=T) u (store w)
                (InternalParameter.fresh_contents (type_of T) false 0
                   (mk this "Halide::Param<?" "p"%char) false)
                (history w ++ [Created (length (store w))]) lo hi Hbad)
      as (r' & h' & Er & Hv).
    rewrite (bind_raised _ _ _ _ _ Er). simpl.
    by rewrite lookup_newest; simpl; rewrite Hv.
  - unfold Param_named_value_range.
    rewrite (named_prefix_accepted (T:=T) n
               (fun r => set_range u (mkParam r) lo hi;;
                         set (mkParam r) val;; mret (mkParam r)) w Hn).
    unfold created.
    destruct (set_range_newest_fault (T:=T) u (store w)
                (InternalParameter.fresh_contents (type_of T) false 0 n true)
                (history w ++ [Created (length (store w))]) lo hi Hbad)
      as (r' & h' & Er & Hv).
    rewrite (bind_raised _ _ _ _ _ Er). simpl.
    by rewrite lookup_newest; simpl; rewrite Hv.
Qed.

(** C6: both constructors with a value and bounds call [set_range] and then
    [set]; [set_range] calls [set_min_value] and then [set_max_value].  For
    bounds whose tags can be read the record is written in exactly this
    order: creation, lower bound, upper bound, value, and the world in which
    the value is written already holds both bounds.  When the tag of a bound
    cannot be read the constructor stops in [set_range] and the value is
    never written. *)
Theorem bounds_before_value {T : Type} `{ScalarType T} (u : option Type_)
    (mk : N -> string -> ascii -> string) (this : N) (n : string) (val : T)
    (lo hi : Expr) (w : World) :
  n ≠ "__user_context" ->
  (forall tlo thi : Type_,
     type_read u lo = Some tlo ->
     type_read u hi = Some thi ->
     (forall (q : Param T) (w0 : World),
        live q w0 ->
        history (world_after (set_range u q lo hi) w0) =
          history w0 ++ [MinValueSet (param q) (stored_bound T tlo lo);
                         MaxValueSet (param q) (stored_bound T thi hi)]) ∧
     history (world_after (Param_value_range u mk this val lo hi) w) =
       history w ++ [Created (length (store w));
                     MinValueSet (length (store w)) (stored_bound T tlo lo);
                     MaxValueSet (length (store w)) (stored_bound T thi hi);
                     ScalarSet (length (store w)) (to_slot val)] ∧
     history (world_after (Param_named_value_range u n val lo hi) w) =
       history w ++ [Created (length (store w));
                     MinValueSet (length (store w)) (stored_bound T tlo lo);
                     MaxValueSet (length (store w)) (stored_bound T thi hi);
                     ScalarSet (length (store w)) (to_slot val)] ∧
     (let before_set :=
        world_after (r ← create_unnamed mk this;
                     set_range u (mkParam (T:=T) r) lo hi) w in
      Param_value_range u mk this val lo hi w =
        (set (mkParam (length (store w))) val;; mret (mkParam (length (store w))))
          before_set ∧
      (pc_value <$> store before_set !! length (store w)) = Some None ∧
      (pc_min_value <$> store before_set !! length (store w)) =
        Some (stored_bound T tlo lo) ∧
      (pc_max_value <$> store before_set !! length (store w)) =
        Some (stored_bound T thi hi)) ∧
     (let before_set :=
        world_after (r ← InternalParameter.create (type_of T) false 0 n true;
                     check_name (T:=T) (mkParam r);;
                     set_range u (mkParam (T:=T) r) lo hi) w in
      Param_named_value_range u n val lo hi w =
        (set (mkParam (length (store w))) val;; mret (mkParam (length (store w))))
          before_set ∧
      (pc_value <$> store before_set !! length (store w)) = Some None ∧
      (pc_min_value <$> store before_set !! length (store w)) =
        Some (stored_bound T tlo lo) ∧
      (pc_max_value <$> store before_set !! length (store w)) =
        Some (stored_bound T thi hi))) ∧
  (type_read u lo = None ∨ type_read u hi = None ->
   (result_of (Param_value_range u mk this val lo hi) w = Raised UndefinedExprError ∧
    (pc_value <$> store (world_after (Param_value_range u mk this val lo hi) w)
                    !! length (store w)) = Some None) ∧
   (result_of (Param_named_value_range u n val lo hi) w = Raised UndefinedExprError ∧
    (pc_value <$> store (world_after (Param_named_value_range u n val lo hi) w)
                    !! length (store w)) = Some None)).
Proof.
  intros Hn. split.
  - intros tlo thi Elo Ehi.
    by apply (bounds_then_value_readable u mk this n val lo hi tlo thi w).
  - by apply value_absent_on_unreadable_bound.
Qed.

Lemma bounds_before_value_witness :
  history threshold_world =
    [Created 0%nat; MinValueSet 0%nat (IntImm 0); MaxValueSet 0%nat (IntImm 255);
     ScalarSet 0%nat 5].
Proof.
  destruct (bounds_before_value (T:=int32_t) None (fun _ prefix _ => prefix) 0
              "threshold" (Int32 5) (IntImm 0) (IntImm 255) empty_world)
    as (Hread & _).
  - discriminate.
  - destruct (Hread (Int 32) (Int 32) eq_refl eq_refl) as (_ & _ & Hnamed & _).
    exact Hnamed.
Defined.

(** ** The user context *)

Lemma user_context_value_run (w : World) :
  user_context_value w =
    (Ok (VariableNode Handle "__user_context" (length (store w))),
     created w (InternalParameter.fresh_contents Handle false 0 "__user_context" true)).
Proof. reflexivity. Qed.

(** C10: [user_context_value()] succeeds in every world: it creates a record
    with the handle tag, flag [false], rank 0, the name "__user_context" and
    the explicit-name flag [true], without any name check, and returns the
    variable of handle type and of that name over that record. *)
Theorem user_context_value_never_fails (u : option Type_) (w : World) :
  result_of user_context_value w =
    Ok (VariableNode Handle "__user_context" (length (store w))) ∧
  type_read u (VariableNode Handle "__user_context" (length (store w))) = Some Handle ∧
  store (world_after user_context_value w) !! length (store w) =
    Some {| pc_type := Handle; pc_is_output := false; pc_dimensions := 0;
            pc_name := "__user_context"; pc_is_explicit_name := true;
            pc_value := None; pc_default := None;
            pc_min_value := Undefined; pc_max_value := Undefined |} ∧
  history (world_after user_context_value w) =
    history w ++ [Created (length (store w))].
Proof.
  unfold result_of, world_after. rewrite user_context_value_run. simpl.
  repeat split. apply lookup_newest.
Qed.

(** C3, as stated, fails: two calls from the empty world return variables
    over two different records. *)
Lemma user_context_value_twice_distinct :
  exists e1 e2 : Expr,
    result_of user_context_value_twice empty_world = Ok (e1, e2) ∧
    backing_record e1 = Some 0%nat ∧
    backing_record e2 = Some 1%nat ∧
    backing_record e1 ≠ backing_record e2.
Proof.
  exists (VariableNode Handle "__user_context" 0%nat),
         (VariableNode Handle "__user_context" 1%nat).
  repeat split. discriminate.
Qed.

(** C3, amended: every call of [user_context_value()] creates a new record
    under the name "__user_context": the record of the returned variable
    does not exist before the call and is the newest one after it, so two
    calls return variables of the same name and type over two distinct
    records. *)
Theorem user_context_value_fresh_record (w : World) :
  result_of user_context_value w =
    Ok (VariableNode Handle "__user_context" (length (store w))) ∧
  store w !! length (store w) = None ∧
  store (world_after user_context_value w) =
    store w ++ [InternalParameter.fresh_contents Handle false 0 "__user_context" true] ∧
  result_of user_context_value_twice w =
    Ok (VariableNode Handle "__user_context" (length (store w)),
        VariableNode Handle "__user_context" (S (length (store w)))) ∧
  length (store w) ≠ S (length (store w)).
Proof.
  split; [done |]. split; [by apply lookup_ge_None_2 |]. split; [done |].
  split; [| lia].
  unfold result_of, user_context_value_twice.
  rewrite (bind_ok _ _ _ _ _ (user_context_value_run w)).
  rewrite (bind_ok _ _ _ _ _ (user_context_value_run _)).
  simpl. rewrite length_app. simpl. by rewrite Nat.add_1_r.
Qed.

(** ** Undefined bounds *)

Lemma undefined_min_probe_run (T : Type) `{ScalarType T} (u : option Type_) (w : World) :
  result_of (undefined_min_probe T u) w =
    match u with
    | None => Raised UndefinedExprError
    | Some t => Ok (stored_bound T t Undefined)
    end.
Proof.
  unfold result_of, undefined_min_probe.
  rewrite (bind_ok _ _ _ _ _ (Param_named_run (T:=T) "p" w ltac:(discriminate))).
  unfold created. destruct u as [t |].
  - rewrite (bind_ok _ _ _ _ _ (set_min_value_newest (Some t) _ _ _ Undefined t eq_refl)).
    unfold get_min_value, InternalParameter.get_min_value; simpl.
    by rewrite read_newest.
  - by rewrite (bind_raised _ _ _ _ _ (set_min_value_fault None _ Undefined _ eq_refl)).
Qed.

Lemma undefined_max_probe_run (T : Type) `{ScalarType T} (u : option Type_) (w : World) :
  result_of (undefined_max_probe T u) w =
    match u with
    | None => Raised UndefinedExprError
    | Some t => Ok (stored_bound T t Undefined)
    end.
Proof.
  unfold result_of, undefined_max_probe.
  rewrite (bind_ok _ _ _ _ _ (Param_named_run (T:=T) "p" w ltac:(discriminate))).
  unfold created. destruct u as [t |].
  - rewrite (bind_ok _ _ _ _ _ (set_max_value_newest (Some t) _ _ _ Undefined t eq_refl)).
    unfold get_max_value, InternalParameter.get_max_value; simpl.
    by rewrite read_newest.
  - by rewrite (bind_raised _ _ _ _ _ (set_max_value_fault None _ Undefined _ eq_refl)).
Qed.

(** C9 does not hold of the code: the setters read the type of their
    argument before anything else, with no test that it is defined.
    Whatever the type query does on the undefined expression, the bound is
    not left undefined at every [T]: if the query faults, so does the
    setter; if it answers a tag, the setter stores a cast of the undefined
    expression at every [T] of another tag. *)
Theorem undefined_bound_not_kept (u : option Type_) (w : World) :
  (u = None ∧
   result_of (undefined_min_probe int32_t u) w = Raised UndefinedExprError ∧
   result_of (undefined_max_probe int32_t u) w = Raised UndefinedExprError) ∨
  (result_of (undefined_min_probe int32_t u) w = Ok (CastNode (Int 32) Undefined) ∧
   result_of (undefined_max_probe int32_t u) w = Ok (CastNode (Int 32) Undefined)) ∨
  (result_of (undefined_min_probe uint8_t u) w = Ok (CastNode (UInt 8) Undefined) ∧
   result_of (undefined_max_probe uint8_t u) w = Ok (CastNode (UInt 8) Undefined)).
Proof.
  rewrite !undefined_min_probe_run, !undefined_max_probe_run.
  destruct u as [t |]; [| by left].
  right. destruct (decide (t = Int 32)) as [-> | Hne].
  - right. by rewrite stored_bound_mismatch by discriminate.
  - left. by rewrite stored_bound_mismatch by done.
Qed.


(** * Further properties of [Param.h] *)

(** ** Methods declared [const] *)

Lemma read_read_only {A : Type} (p : InternalParameter) (f : ParameterContents -> A) :
  read_only (InternalParameter.read p f).
Proof.
  intros w. unfold world_after, InternalParameter.read. by destruct (store w !! p).
Qed.

Lemma ret_read_only {A : Type} (a : A) : read_only (mret a : M A).
Proof. by intros w. Qed.

Lemma bind_read_only {A B : Type} (m : M A) (f : A -> M B) :
  read_only m -> (forall a, read_only (f a)) -> read_only (m ≫= f).
Proof.
  intros Hm Hf w. specialize (Hm w). unfold world_after in *.
  unfold mbind, M_bind. destruct (m w) as [[a | e] w1]; simpl in Hm; subst w1.
  - apply Hf.
  - done.
Qed.

Lemma user_assert_read_only (c : bool) (msg : string) : read_only (user_assert c msg).
Proof. intros w. by destruct c. Qed.

(** X1: the methods [Param.h] declares [const] ([check_name], [name],
    [is_explicit_name], [get], the bound getters and the three conversions)
    leave every world unchanged, whether they return or raise, on any
    handle. *)
Theorem const_methods_read_only {T : Type} `{ScalarType T}
    (view : ParameterContents -> Expr) (p : Param T) :
  read_only (check_name p) ∧
  read_only (name p) ∧
  read_only (is_explicit_name p) ∧
  read_only (get p) ∧
  read_only (get_min_value p) ∧
  read_only (get_max_value p) ∧
  read_only (to_Expr p) ∧
  read_only (to_ExternFuncArgument p) ∧
  read_only (to_Argument view p).
Proof.
  assert (Hname : read_only (name p)) by apply read_read_only.
  assert (Hexpr : read_only (to_Expr p)).
  { apply bind_read_only; [done |]. intros n. apply ret_read_only. }
  repeat split; try apply read_read_only; try done.
  - apply bind_read_only; [apply read_read_only |].
    intros n. apply user_assert_read_only.
  - apply bind_read_only; [done |]. intros e. apply ret_read_only.
  - unfold to_Argument.
    apply bind_read_only; [done |]. intros n.
    apply bind_read_only; [apply read_read_only |]. intros d.
    apply bind_read_only; [apply read_read_only |]. intros lo.
    apply bind_read_only; [apply read_read_only |]. intros hi.
    apply ret_read_only.
Qed.

(** ** Setters only reach their own record *)

Lemma write_frame (q l : InternalParameter) (f : ParameterContents -> ParameterContents)
    (ev : Event) (w : World) :
  l ≠ q ->
  store (world_after (InternalParameter.write q f ev) w) !! l = store w !! l.
Proof.
  intros Hne. unfold world_after, InternalParameter.write.
  destruct (store w !! q); simpl; [| done].
  by apply list_lookup_insert_ne.
Qed.

Lemma bind_frame {A B : Type} (m : M A) (k : A -> M B) (l : InternalParameter) (w : World) :
  (forall w0, store (world_after m w0) !! l = store w0 !! l) ->
  (forall a w0, store (world_after (k a) w0) !! l = store w0 !! l) ->
  store (world_after (m ≫= k) w) !! l = store w !! l.
Proof.
  intros Hm Hk. specialize (Hm w). unfold world_after in *.
  unfold mbind, M_bind. destruct (m w) as [[a | e] w1]; simpl in *.
  - by rewrite Hk.
  - done.
Qed.

Lemma Expr_type_frame (u : option Type_) (e : Expr) (l : InternalParameter) (w : World) :
  store (world_after (Expr_type u e) w) !! l = store w !! l.
Proof. unfold world_after, Expr_type. by destruct (type_read u e). Qed.

Lemma set_min_value_frame {T : Type} `{ScalarType T} (u : option Type_)
    (q : Param T) (e : Expr) (l : InternalParameter) (w : World) :
  l ≠ param q ->
  store (world_after (set_min_value u q e) w) !! l = store w !! l.
Proof.
  intros Hne. unfold set_min_value. apply bind_frame.
  - intros w0. apply Expr_type_frame.
  - intros t w0. by apply write_frame.
Qed.

Lemma set_max_value_frame {T : Type} `{ScalarType T} (u : option Type_)
    (q : Param T) (e : Expr) (l : InternalParameter) (w : World) :
  l ≠ param q ->
  store (world_after (set_max_value u q e) w) !! l = store w !! l.
Proof.
  intros Hne. unfold set_max_value. apply bind_frame.
  - intros w0. apply Expr_type_frame.
  - intros t w0. by apply write_frame.
Qed.

(** X2: a setter called on a handle [q] ([set], [set_default_value],
    [set_min_value], [set_max_value], [set_range]) leaves the record of every
    handle [p] over another record as it was, of whatever type [p] is and
    whether the setter returns or raises. *)
Theorem setters_leave_other_records {T1 T2 : Type} `{ScalarType T1} `{ScalarType T2}
    (u : option Type_) (p : Param T1) (q : Param T2) (v : T2) (lo hi : Expr)
    (w : World) :
  param p ≠ param q ->
  record_of p (world_after (set q v) w) = record_of p w ∧
  record_of p (world_after (set_default_value q v) w) = record_of p w ∧
  record_of p (world_after (set_min_value u q lo) w) = record_of p w ∧
  record_of p (world_after (set_max_value u q hi) w) = record_of p w ∧
  record_of p (world_after (set_range u q lo hi) w) = record_of p w.
Proof.
  intros Hne. unfold record_of. repeat split.
  - by apply write_frame.
  - by apply write_frame.
  - by apply set_min_value_frame.
  - by apply set_max_value_frame.
  - unfold set_range. apply bind_frame.
    + intros w0. by apply set_min_value_frame.
    + intros _ w0. by apply set_max_value_frame.
Qed.

Lemma setters_leave_other_records_witness :
  record_of threshold (world_after (set_range None gain (IntImm 1) Undefined) two_params_world) =
    record_of threshold two_params_world.
Proof.
  apply (setters_leave_other_records None threshold gain (UInt8 0) (IntImm 1) Undefined
           two_params_world).
  discriminate.
Defined.

(** ** What a constructor does to the store *)

Lemma same_identity_refl (r : ParameterContents) : same_identity r r.
Proof. by repeat split. Qed.

Lemma bounds_step_refl {T : Type} `{ScalarType T} (u : option Type_)
    (r : ParameterContents) : bounds_step u T r r.
Proof.
  split; [apply same_identity_refl |]. split; [done |]. split; [done |]. tauto.
Qed.

Lemma bounds_step_trans {T : Type} `{ScalarType T} (u : option Type_)
    (r1 r2 r3 : ParameterContents) :
  bounds_step u T r1 r2 -> bounds_step u T r2 r3 -> bounds_step u T r1 r3.
Proof.
  intros ((Ht & Ho & Hd & Hn & He) & Hv & Hdf & Hb)
         ((Ht' & Ho' & Hd' & Hn' & He') & Hv' & Hdf' & Hb').
  repeat split; try congruence; apply Hb', Hb; assumption.
Qed.

Lemma stored_bound_typed {T : Type} `{ScalarType T} (u : option Type_)
    (t : Type_) (e : Expr) :
  type_read u e = Some t -> bound_typed u (type_of T) (stored_bound T t e).
Proof. intros Et. right. by apply stored_bound_type. Qed.

Lemma set_min_value_newest_any {T : Type} `{ScalarType T} (u : option Type_)
    (l : list ParameterContents) (r : ParameterContents) (h : list Event) (e : Expr) :
  exists (o : outcome unit) (r' : ParameterContents) (h' : list Event),
    set_min_value u (mkParam (T:=T) (length l)) e {| store := l ++ [r]; history := h |} =
      (o, {| store := l ++ [r']; history := h' |}) ∧
    bounds_step u T r r'.
Proof.
  destruct (type_read u e) as [t |] eqn:Et.
  - eexists _, _, _. split; [by apply (set_min_value_newest u l r h e t) |].
    split; [by repeat split |]. split; [done |]. split; [done |].
    intros [_ Hmax]. split; simpl; [by apply stored_bound_typed | done].
  - exists (Raised UndefinedExprError), r, h.
    split; [by apply set_min_value_fault | apply bounds_step_refl].
Qed.

Lemma set_max_value_newest_any {T : Type} `{ScalarType T} (u : option Type_)
    (l : list ParameterContents) (r : ParameterContents) (h : list Event) (e : Expr) :
  exists (o : outcome unit) (r' : ParameterContents) (h' : list Event),
    set_max_value u (mkParam (T:=T) (length l)) e {| store := l ++ [r]; history := h |} =
      (o, {| store := l ++ [r']; history := h' |}) ∧
    bounds_step u T r r'.
Proof.
  destruct (type_read u e) as [t |] eqn:Et.
  - eexists _, _, _. split; [by apply (set_max_value_newest u l r h e t) |].
    split; [by repeat split |]. split; [done |]. split; [done |].
    intros [Hmin _]. split; simpl; [done | by apply stored_bound_typed].
  - exists (Raised UndefinedExprError), r, h.
    split; [by apply set_max_value_fault | apply bounds_step_refl].
Qed.

Lemma set_range_newest_any {T : Type} `{ScalarType T} (u : option Type_)
    (l : list ParameterContents) (r : ParameterContents) (h : list Event)
    (lo hi : Expr) :
  exists (o : outcome unit) (r' : ParameterContents) (h' : list Event),
    set_range u (mkParam (T:=T) (length l)) lo hi {| store := l ++ [r]; history := h |} =
      (o, {| store := l ++ [r']; history := h' |}) ∧
    bounds_step u T r r'.
Proof.
  unfold set_range.
  destruct (set_min_value_newest_any u l r h lo) as (o1 & r1 & h1 & E1 & S1).
  destruct o1 as [[] | e1].
  - rewrite (bind_ok _ _ _ _ _ E1).
    destruct (set_max_value_newest_any u l r1 h1 hi) as (o2 & r2 & h2 & E2 & S2).
    exists o2, r2, h2. split; [done |]. by apply (bounds_step_trans u r r1 r2).
  - rewrite (bind_raised _ _ _ _ _ E1). by exists (Raised e1), r1, h1.
Qed.

Section ConstructorBodies.

Context {T : Type} `{ScalarType T}.
Variable u : option Type_.
Variables (l : list ParameterContents) (r : ParameterContents) (h : list Event).





End ConstructorBodies.



(** ** What the accessors show after a constructor *)

Lemma is_explicit_name_run {T : Type} (p : Param T) (w : World) (r : ParameterContents) :
  record_of p w = Some r -> is_explicit_name p w = (Ok (pc_is_explicit_name r), w).
Proof.
  intros Hr. unfold is_explicit_name, InternalParameter.is_explicit_name.
  by apply read_live.
Qed.

Lemma observe_run {T : Type} `{ScalarType T} (p : Param T) (w : World)
    (r : ParameterContents) :
  record_of p w = Some r ->
  observe p w =
    (Ok (pc_name r, pc_is_explicit_name r, of_slot <$> pc_value r,
         pc_min_value r, pc_max_value r), w).
Proof.
  intros Hr. unfold observe.
  rewrite (bind_ok _ _ _ _ _ (name_run p w r Hr)).
  rewrite (bind_ok _ _ _ _ _ (is_explicit_name_run p w r Hr)).
  rewrite (bind_ok _ _ _ _ _ (get_run p w r Hr)).
  rewrite (bind_ok _ _ _ _ _ (get_min_value_run p w r Hr)).
  by rewrite (bind_ok _ _ _ _ _ (get_max_value_run p w r Hr)).
Qed.

Lemma record_of_newest {T : Type} (l : list ParameterContents) (r : ParameterContents)
    (h : list Event) :
  record_of (mkParam (T:=T) (length l)) {| store := l ++ [r]; history := h |} = Some r.
Proof. unfold record_of; simpl. apply lookup_newest. Qed.

Lemma type_read_defined (u : option Type_) (e : Expr) (t : Type_) :
  type_read None e = Some t -> type_read u e = Some t.
Proof. by destruct e. Qed.

(** X4: when a constructor that takes a name returns a handle, the name was
    not "__user_context", [name()] is the name given,
    [is_explicit_name()] is true, and the expression form is the variable of
    the tag of [T] and of that name over the new record. *)
Theorem named_constructors_keep_name {T : Type} `{ScalarType T} (u : option Type_)
    (n : string) (val : T) (lo hi : Expr) (w w' : World) (p : Param T) :
  Param_named n w = (Ok p, w') ∨
  Param_named_cstr n w = (Ok p, w') ∨
  Param_named_value n val w = (Ok p, w') ∨
  Param_named_value_range u n val lo hi w = (Ok p, w') ->
  n ≠ "__user_context" ∧
  result_of (name p) w' = Ok n ∧
  result_of (is_explicit_name p) w' = Ok true ∧
  result_of (to_Expr p) w' = Ok (VariableNode (type_of T) n (length (store w))).
Proof.
  intros Hc.
  assert (Hn : n ≠ reserved_name).
  { intros ->. unfold Param_named, Param_named_cstr, Param_named_value,
      Param_named_value_range in Hc.
    rewrite !(named_prefix_rejected (T:=T) (fun r => mret (mkParam r))) in Hc.
    rewrite (named_prefix_rejected (T:=T)
               (fun r => set (mkParam r) val;; mret (mkParam r))) in Hc.
    rewrite (named_prefix_rejected (T:=T)
               (fun r => set_range u (mkParam r) lo hi;;
                         set (mkParam r) val;; mret (mkParam r))) in Hc.
    by destruct Hc as [? | [? | [? | ?]]]. }
  split; [done |].
  assert (exists r' h', p = mkParam (length (store w)) ∧
            w' = {| store := store w ++ [r']; history := h' |} ∧
            pc_name r' = n ∧ pc_is_explicit_name r' = true)
    as (r' & h' & -> & -> & Hname & Hflag).
  { rewrite (Param_named_run n w Hn), (Param_named_cstr_run n w Hn),
      (Param_named_value_run n val w Hn) in Hc.
    destruct Hc as [Hc | [Hc | [Hc | Hc]]].
    - injection Hc as <- <-. by eexists _, _.
    - injection Hc as <- <-. by eexists _, _.
    - injection Hc as <- <-. by eexists _, _.
    - destruct (type_read u lo) as [tlo |] eqn:Elo;
        [destruct (type_read u hi) as [thi |] eqn:Ehi |].
      + rewrite (Param_named_value_range_run u n val lo hi tlo thi w Hn Elo Ehi) in Hc.
        injection Hc as <- <-. by eexists _, _.
      + destruct (value_absent_on_unreadable_bound u (fun _ s _ => s) 0%N n val lo hi w
                    Hn (or_intror Ehi)) as (_ & Hr & _).
        unfold result_of in Hr. by rewrite Hc in Hr.
      + destruct (value_absent_on_unreadable_bound u (fun _ s _ => s) 0%N n val lo hi w
                    Hn (or_introl Elo)) as (_ & Hr & _).
        unfold result_of in Hr. by rewrite Hc in Hr. }
  unfold result_of.
  rewrite (name_run _ _ _ (record_of_newest (store w) r' h')).
  rewrite (is_explicit_name_run _ _ _ (record_of_newest (store w) r' h')).
  rewrite (to_Expr_run _ _ _ (record_of_newest (store w) r' h')).
  simpl. by rewrite Hname, Hflag.
Qed.

Lemma named_constructors_keep_name_witness :
  result_of (name threshold) threshold_world = Ok "threshold" ∧
  result_of (is_explicit_name threshold) threshold_world = Ok true.
Proof.
  destruct (named_constructors_keep_name (T:=int32_t) None "threshold" (Int32 5)
              (IntImm 0) (IntImm 255) empty_world threshold_world threshold)
    as (_ & Hname & Hflag & _).
  - right. right. right. reflexivity.
  - split; [exact Hname | exact Hflag].
Defined.

Lemma Param_new_run {T : Type} `{ScalarType T} (mk : N -> string -> ascii -> string)
    (this : N) (w : World) :
  Param_new (T:=T) mk this w =
    (Ok (mkParam (length (store w))),
     created w (InternalParameter.fresh_contents (type_of T) false 0
                  (mk this "Halide::Param<?" "p"%char) false)).
Proof. reflexivity. Qed.

Lemma Param_value_run {T : Type} `{ScalarType T} `{not_a_pointer T}
    (mk : N -> string -> ascii -> string) (this : N) (val : T) (w : World) :
  Param_value mk this val w =
    (Ok (mkParam (length (store w))),
     {| store := store w ++
          [InternalParameter.with_value (Some (to_slot val))
             (InternalParameter.fresh_contents (type_of T) false 0
                (mk this "Halide::Param<?" "p"%char) false)];
        history := history w ++
          [Created (length (store w)); ScalarSet (length (store w)) (to_slot val)] |}).
Proof.
  unfold Param_value, create_unnamed.
  rewrite (bind_ok _ _ _ _ _ (create_run _ _ _ _ _ w)). unfold created.
  rewrite (bind_ok _ _ _ _ _ (set_newest _ _ _ val)).
  by rewrite <- app_assoc.
Qed.

(** X5: the constructors without a name never run the name check.  For every
    naming function, [Param()] and [Param(val)] always return a handle whose
    name is the generated one, even "__user_context", with the explicit-name
    flag false and no bounds; [Param()] stores no value and [Param(val)]
    stores [val]; [Param(val, min, max)] never raises [ReservedNameError]. *)
Theorem unnamed_constructors_skip_check {T : Type} `{ScalarType T} `{not_a_pointer T}
    (u : option Type_) (mk : N -> string -> ascii -> string) (this : N)
    (val : T) (lo hi : Expr) (w : World) :
  result_of (p ← Param_new mk this; observe p) w =
    Ok (mk this "Halide::Param<?" "p"%char, false, None, Undefined, Undefined) ∧
  result_of (p ← Param_value mk this val; observe p) w =
    Ok (mk this "Halide::Param<?" "p"%char, false, Some val, Undefined, Undefined) ∧
  result_of (p ← Param_new (T:=T) (fun _ _ _ => "__user_context") this; name p) w =
    Ok "__user_context" ∧
  name_accepted (result_of (Param_value_range u mk this val lo hi) w).
Proof.
  unfold result_of. repeat split.
  - rewrite (bind_ok _ _ _ _ _ (Param_new_run mk this w)). unfold created.
    by rewrite (observe_run _ _ _ (record_of_newest _ _ _)).
  - rewrite (bind_ok _ _ _ _ _ (Param_value_run mk this val w)).
    rewrite (observe_run _ _ _ (record_of_newest _ _ _)); simpl.
    by rewrite of_to_slot.
  - rewrite (bind_ok _ _ _ _ _ (Param_new_run _ this w)). unfold created.
    by rewrite (name_run _ _ _ (record_of_newest _ _ _)).
  - intros msg. unfold Param_value_range, create_unnamed.
    rewrite (bind_ok _ _ _ _ _ (create_run _ _ _ _ _ w)). unfold created.
    destruct (set_range_newest_any (T:=T) u (store w)
                (InternalParameter.fresh_contents (type_of T) false 0
                   (mk this "Halide::Param<?" "p"%char) false)
                (history w ++ [Created (length (store w))]) lo hi)
      as (o1 & r1 & h1 & E1 & _).
    pose proof (set_range_newest_outcome (T:=T) u (store w)
                  (InternalParameter.fresh_contents (type_of T) false 0
                     (mk this "Halide::Param<?" "p"%char) false)
                  (history w ++ [Created (length (store w))]) lo hi) as Ho.
    simpl in Ho. unfold result_of in Ho. rewrite E1 in Ho; simpl in Ho.
    destruct Ho as [-> | ->].
    + rewrite (bind_ok _ _ _ _ _ E1).
      by rewrite (bind_ok _ _ _ _ _ (set_newest _ _ _ val)).
    + by rewrite (bind_raised _ _ _ _ _ E1).
Qed.

(** X6: with bounds that are defined expressions, both constructors with a
    value and bounds succeed whatever the type query does on the undefined
    expression, and the accessors then show the name (generated with flag
    false, or given with flag true), the value [val], and each bound as
    given when it has the tag of [T], under one cast to that tag
    otherwise. *)
Theorem bounded_constructors_postcondition {T : Type} `{ScalarType T}
    (u : option Type_) (mk : N -> string -> ascii -> string) (this : N)
    (n : string) (val : T) (lo hi : Expr) (tlo thi : Type_) (w : World) :
  n ≠ "__user_context" ->
  type_read None lo = Some tlo ->
  type_read None hi = Some thi ->
  result_of (p ← Param_value_range u mk this val lo hi; observe p) w =
    Ok (mk this "Halide::Param<?" "p"%char, false, Some val,
        stored_bound T tlo lo, stored_bound T thi hi) ∧
  result_of (p ← Param_named_value_range u n val lo hi; observe p) w =
    Ok (n, true, Some val, stored_bound T tlo lo, stored_bound T thi hi).
Proof.
  intros Hn Elo Ehi.
  apply (type_read_defined u) in Elo. apply (type_read_defined u) in Ehi.
  unfold result_of. split.
  - rewrite (bind_ok _ _ _ _ _
               (Param_value_range_run u mk this val lo hi tlo thi w Elo Ehi)).
    rewrite (observe_run _ _ _ (record_of_newest _ _ _)); simpl.
    by rewrite of_to_slot.
  - rewrite (bind_ok _ _ _ _ _
               (Param_named_value_range_run u n val lo hi tlo thi w Hn Elo Ehi)).
    rewrite (observe_run _ _ _ (record_of_newest _ _ _)); simpl.
    by rewrite of_to_slot.
Qed.

Lemma bounded_constructors_postcondition_witness :
  result_of (p ← Param_named_value_range (T:=uint8_t) None "threshold" (UInt8 5)
                   (IntImm 0) (CastNode (UInt 8) (IntImm 255));
             observe p) empty_world =
    Ok ("threshold", true, Some (UInt8 5),
        CastNode (UInt 8) (IntImm 0), CastNode (UInt 8) (IntImm 255)).
Proof.
  destruct (bounded_constructors_postcondition (T:=uint8_t) None
              (fun _ prefix _ => prefix) 0 "threshold" (UInt8 5)
              (IntImm 0) (CastNode (UInt 8) (IntImm 255)) (Int 32) (UInt 8)
              empty_world) as (_ & Hnamed).
  - discriminate.
  - reflexivity.
  - reflexivity.
  - exact Hnamed.
Defined.

(** ** Bounds stay of the type of the handle *)

Lemma same_identity_trans (r1 r2 r3 : ParameterContents) :
  same_identity r1 r2 -> same_identity r2 r3 -> same_identity r1 r3.
Proof.
  intros (? & ? & ? & ? & ?) (? & ? & ? & ? & ?). repeat split; congruence.
Qed.

Lemma set_default_value_run {T : Type} `{ScalarType T} (p : Param T) (w : World)
    (r : ParameterContents) (v : T) :
  record_of p w = Some r ->
  set_default_value p v w =
    (Ok tt, {| store := <[param p := InternalParameter.with_default (Some (to_slot v)) r]> (store w);
               history := history w ++ [DefaultSet (param p) (to_slot v)] |}).
Proof.
  intros Hr. unfold set_default_value, InternalParameter.set_default.
  by apply write_live.
Qed.

Section KeepsRecord.

Context {T : Type} `{ScalarType T}.
Variable u : option Type_.

Lemma set_keeps_record (p : Param T) (r : ParameterContents) (v : T) (w : World) :
  record_of p w = Some r -> bounds_typed u (type_of T) r ->
  keeps_record u p r (set p v) w.
Proof.
  intros Hr Hb. eexists. unfold world_after. rewrite (set_run p w r Hr v); simpl.
  split; [by apply (record_after_write p w r) |]. by split; [repeat split |].
Qed.

Lemma set_default_value_keeps_record (p : Param T) (r : ParameterContents) (v : T)
    (w : World) :
  record_of p w = Some r -> bounds_typed u (type_of T) r ->
  keeps_record u p r (set_default_value p v) w.
Proof.
  intros Hr Hb. eexists. unfold world_after.
  rewrite (set_default_value_run p w r v Hr); simpl.
  split; [by apply (record_after_write p w r) |]. by split; [repeat split |].
Qed.

Lemma set_min_value_keeps_record (p : Param T) (r : ParameterContents) (e : Expr)
    (w : World) :
  record_of p w = Some r -> bounds_typed u (type_of T) r ->
  keeps_record u p r (set_min_value u p e) w.
Proof.
  intros Hr Hb. unfold keeps_record, world_after.
  destruct (type_read u e) as [t |] eqn:Et.
  - rewrite (set_min_value_run u p w r Hr e t Et); simpl. eexists.
    split; [by apply (record_after_write p w r) |].
    split; [by repeat split |].
    destruct Hb as [_ Hmax]. split; simpl; [by apply stored_bound_typed | done].
  - rewrite (set_min_value_fault u p e w Et); simpl.
    exists r. split; [done |]. split; [apply same_identity_refl | done].
Qed.

Lemma set_max_value_keeps_record (p : Param T) (r : ParameterContents) (e : Expr)
    (w : World) :
  record_of p w = Some r -> bounds_typed u (type_of T) r ->
  keeps_record u p r (set_max_value u p e) w.
Proof.
  intros Hr Hb. unfold keeps_record, world_after.
  destruct (type_read u e) as [t |] eqn:Et.
  - rewrite (set_max_value_run u p w r Hr e t Et); simpl. eexists.
    split; [by apply (record_after_write p w r) |].
    split; [by repeat split |].
    destruct Hb as [Hmin _]. split; simpl; [done | by apply stored_bound_typed].
  - rewrite (set_max_value_fault u p e w Et); simpl.
    exists r. split; [done |]. split; [apply same_identity_refl | done].
Qed.

Lemma set_range_keeps_record (p : Param T) (r : ParameterContents) (lo hi : Expr)
    (w : World) :
  record_of p w = Some r -> bounds_typed u (type_of T) r ->
  keeps_record u p r (set_range u p lo hi) w.
Proof.
  intros Hr Hb.
  destruct (set_min_value_keeps_record p r lo w Hr Hb) as (r1 & Hr1 & Hid1 & Hb1).
  unfold keeps_record, world_after, set_range in *.
  destruct (set_min_value u p lo w) as [[[] | e1] w1] eqn:E1; simpl in Hr1.
  - rewrite (bind_ok _ _ _ _ _ E1).
    destruct (set_max_value_keeps_record p r1 hi w1 Hr1 Hb1) as (r2 & Hr2 & Hid2 & Hb2).
    exists r2. split; [done |]. split; [| done].
    by apply (same_identity_trans r r1 r2).
  - rewrite (bind_raised _ _ _ _ _ E1). by exists r1.
Qed.

End KeepsRecord.

(** X7: on a live handle whose bounds are each unset or of the tag of [T],
    every setter, whether it returns or raises, leaves a record of the same
    tag, flag, rank, name and explicit-name flag whose bounds are again each
    unset or of the tag of [T]; the signature argument of such a handle has
    bounds that are unset or of the type the argument declares. *)
Theorem setters_keep_bounds_typed {T : Type} `{ScalarType T} (u : option Type_)
    (view : ParameterContents -> Expr) (p : Param T) (v : T) (lo hi : Expr)
    (w : World) (r : ParameterContents) :
  record_of p w = Some r ->
  bounds_typed u (type_of T) r ->
  keeps_record u p r (set p v) w ∧
  keeps_record u p r (set_default_value p v) w ∧
  keeps_record u p r (set_min_value u p lo) w ∧
  keeps_record u p r (set_max_value u p hi) w ∧
  keeps_record u p r (set_range u p lo hi) w ∧
  (exists a : Argument,
     result_of (to_Argument view p) w = Ok a ∧
     bound_typed u (arg_type a) (arg_min a) ∧
     bound_typed u (arg_type a) (arg_max a)).
Proof.
  intros Hr Hb.
  split; [by apply set_keeps_record |].
  split; [by apply set_default_value_keeps_record |].
  split; [by apply set_min_value_keeps_record |].
  split; [by apply set_max_value_keeps_record |].
  split; [by apply set_range_keeps_record |].
  eexists. unfold result_of, to_Argument.
  rewrite (bind_ok _ _ _ _ _ (name_run p w r Hr)).
  unfold InternalParameter.get_scalar_expr.
  rewrite (bind_ok _ _ _ _ _ (read_live _ view w r Hr)).
  rewrite (bind_ok _ _ _ _ _ (get_min_value_run p w r Hr)).
  rewrite (bind_ok _ _ _ _ _ (get_max_value_run p w r Hr)).
  simpl. split; [done |]. by destruct Hb.
Qed.

Lemma threshold_record :
  record_of threshold threshold_world =
    Some (bounded_record int32_t "threshold" true (Int32 5) (IntImm 0) (IntImm 255)).
Proof. reflexivity. Defined.

Lemma setters_keep_bounds_typed_witness :
  keeps_record None threshold
    (bounded_record int32_t "threshold" true (Int32 5) (IntImm 0) (IntImm 255))
    (set_range None threshold Undefined (FloatImm 0)) threshold_world.
Proof.
  destruct (setters_keep_bounds_typed None (fun _ => Undefined) threshold (Int32 0)
              Undefined (FloatImm 0) threshold_world _ threshold_record)
    as (_ & _ & _ & _ & Hrange & _).
  - split; right; reflexivity.
  - exact Hrange.
Defined.

(** ** Bounds set again, and parameters used as bounds *)

Lemma set_min_value_record {T : Type} `{ScalarType T} (u : option Type_) (p : Param T)
    (e : Expr) (t : Type_) (w : World) (r : ParameterContents) :
  record_of p w = Some r -> type_read u e = Some t ->
  exists w1 : World,
    set_min_value u p e w = (Ok tt, w1) ∧
    record_of p w1 = Some (InternalParameter.with_min_value (stored_bound T t e) r).
Proof.
  intros Hr Et. eexists. split; [by apply (set_min_value_run u p w r Hr e t) |].
  by apply (record_after_write p w r).
Qed.

Lemma set_max_value_record {T : Type} `{ScalarType T} (u : option Type_) (p : Param T)
    (e : Expr) (t : Type_) (w : World) (r : ParameterContents) :
  record_of p w = Some r -> type_read u e = Some t ->
  exists w1 : World,
    set_max_value u p e w = (Ok tt, w1) ∧
    record_of p w1 = Some (InternalParameter.with_max_value (stored_bound T t e) r).
Proof.
  intros Hr Et. eexists. split; [by apply (set_max_value_run u p w r Hr e t) |].
  by apply (record_after_write p w r).
Qed.

Lemma set_range_record {T : Type} `{ScalarType T} (u : option Type_) (p : Param T)
    (lo hi : Expr) (tlo thi : Type_) (w : World) (r : ParameterContents) :
  record_of p w = Some r -> type_read u lo = Some tlo -> type_read u hi = Some thi ->
  exists w2 : World,
    set_range u p lo hi w = (Ok tt, w2) ∧
    record_of p w2 =
      Some (InternalParameter.with_max_value (stored_bound T thi hi)
              (InternalParameter.with_min_value (stored_bound T tlo lo) r)).
Proof.
  intros Hr Elo Ehi.
  destruct (set_min_value_record u p lo tlo w r Hr Elo) as (w1 & E1 & Hr1).
  destruct (set_max_value_record u p hi thi w1 _ Hr1 Ehi) as (w2 & E2 & Hr2).
  exists w2. split; [| done]. unfold set_range. by rewrite (bind_ok _ _ _ _ _ E1).
Qed.

(** X8: a bound that was read back from a handle and is set again is stored
    as it is: the setters add a cast once, never a second one, so setting
    the bound read back changes neither the bound nor the record. *)
Theorem coercion_is_idempotent {T : Type} `{ScalarType T} (u : option Type_)
    (p : Param T) (e : Expr) (t : Type_) (w : World) :
  live p w ->
  type_read u e = Some t ->
  result_of (set_min_value u p e;; b ← get_min_value p;
             set_min_value u p b;; get_min_value p) w =
    result_of (set_min_value u p e;; get_min_value p) w ∧
  result_of (set_max_value u p e;; b ← get_max_value p;
             set_max_value u p b;; get_max_value p) w =
    result_of (set_max_value u p e;; get_max_value p) w ∧
  record_of p (world_after (set_min_value u p e;; b ← get_min_value p;
                            set_min_value u p b) w) =
    record_of p (world_after (set_min_value u p e) w) ∧
  record_of p (world_after (set_max_value u p e;; b ← get_max_value p;
                            set_max_value u p b) w) =
    record_of p (world_after (set_max_value u p e) w).
Proof.
  intros [r Hr] Et.
  pose proof (stored_bound_type (T:=T) u t e Et) as Et'.
  destruct (set_min_value_record u p e t w r Hr Et) as (w1 & E1 & Hr1).
  destruct (set_min_value_record u p _ _ w1 _ Hr1 Et') as (w2 & E2 & Hr2).
  destruct (set_max_value_record u p e t w r Hr Et) as (v1 & F1 & Gr1).
  destruct (set_max_value_record u p _ _ v1 _ Gr1 Et') as (v2 & F2 & Gr2).
  rewrite (stored_bound_match (T:=T) (type_of T)) in Hr2, Gr2 by done.
  unfold result_of, world_after. repeat split.
  - rewrite !(bind_ok _ _ _ _ _ E1).
    rewrite (bind_ok _ _ _ _ _ (get_min_value_run p w1 _ Hr1)); simpl.
    rewrite (bind_ok _ _ _ _ _ E2).
    by rewrite (get_min_value_run p w2 _ Hr2), (get_min_value_run p w1 _ Hr1).
  - rewrite !(bind_ok _ _ _ _ _ F1).
    rewrite (bind_ok _ _ _ _ _ (get_max_value_run p v1 _ Gr1)); simpl.
    rewrite (bind_ok _ _ _ _ _ F2).
    by rewrite (get_max_value_run p v2 _ Gr2), (get_max_value_run p v1 _ Gr1).
  - rewrite (bind_ok _ _ _ _ _ E1), E1.
    rewrite (bind_ok _ _ _ _ _ (get_min_value_run p w1 _ Hr1)); simpl.
    rewrite E2; simpl. by rewrite Hr1, Hr2.
  - rewrite (bind_ok _ _ _ _ _ F1), F1.
    rewrite (bind_ok _ _ _ _ _ (get_max_value_run p v1 _ Gr1)); simpl.
    rewrite F2; simpl. by rewrite Gr1, Gr2.
Qed.

Lemma coercion_is_idempotent_witness :
  result_of (set_min_value None threshold (FloatImm 0);; b ← get_min_value threshold;
             set_min_value None threshold b;; get_min_value threshold) threshold_world =
    Ok (CastNode (Int 32) (FloatImm 0)).
Proof.
  destruct (coercion_is_idempotent None threshold (FloatImm 0) (Float 32)
              threshold_world threshold_live eq_refl) as (Hmin & _).
  rewrite Hmin. reflexivity.
Defined.

(** X9: a parameter [q] of type [T2] can be given as a bound of a parameter
    [p] of type [T1] (also of itself): the setter never raises, whatever the
    type query does on undefined expressions, and the bound read back is the
    variable of [q] itself when the two tags agree and that variable under
    one cast to the tag of [T1] when they differ. *)
Theorem param_as_bound {T1 T2 : Type} `{ScalarType T1} `{ScalarType T2}
    (u : option Type_) (p : Param T1) (q : Param T2) (w : World)
    (rp rq : ParameterContents) :
  record_of p w = Some rp ->
  record_of q w = Some rq ->
  result_of (e ← to_Expr q; set_min_value u p e;; get_min_value p) w =
    Ok (if bool_decide (type_of T2 = type_of T1)
        then VariableNode (type_of T2) (pc_name rq) (param q)
        else CastNode (type_of T1) (VariableNode (type_of T2) (pc_name rq) (param q))) ∧
  result_of (e ← to_Expr q; set_max_value u p e;; get_max_value p) w =
    Ok (if bool_decide (type_of T2 = type_of T1)
        then VariableNode (type_of T2) (pc_name rq) (param q)
        else CastNode (type_of T1) (VariableNode (type_of T2) (pc_name rq) (param q))).
Proof.
  intros Hp Hq.
  assert (Hsb : stored_bound T1 (type_of T2)
                  (VariableNode (type_of T2) (pc_name rq) (param q)) =
                if bool_decide (type_of T2 = type_of T1)
                then VariableNode (type_of T2) (pc_name rq) (param q)
                else CastNode (type_of T1)
                       (VariableNode (type_of T2) (pc_name rq) (param q))).
  { case_bool_decide as E.
    - by apply stored_bound_match.
    - by apply stored_bound_mismatch. }
  unfold result_of. split.
  - rewrite (bind_ok _ _ _ _ _ (to_Expr_run q w rq Hq)).
    destruct (set_min_value_record u p
                (VariableNode (type_of T2) (pc_name rq) (param q))
                (type_of T2) w rp Hp eq_refl)
      as (w1 & E1 & Hr1).
    rewrite (bind_ok _ _ _ _ _ E1).
    rewrite (get_min_value_run p w1 _ Hr1); simpl. by rewrite Hsb.
  - rewrite (bind_ok _ _ _ _ _ (to_Expr_run q w rq Hq)).
    destruct (set_max_value_record u p
                (VariableNode (type_of T2) (pc_name rq) (param q))
                (type_of T2) w rp Hp eq_refl)
      as (w1 & E1 & Hr1).
    rewrite (bind_ok _ _ _ _ _ E1).
    rewrite (get_max_value_run p w1 _ Hr1); simpl. by rewrite Hsb.
Qed.

Lemma param_as_bound_witness :
  result_of (e ← to_Expr gain; set_max_value None threshold e;; get_max_value threshold)
    two_params_world =
    Ok (CastNode (Int 32) (VariableNode (UInt 8) "gain" 1%nat)).
Proof.
  destruct (param_as_bound None threshold gain two_params_world
              (bounded_record int32_t "threshold" true (Int32 5) (IntImm 0) (IntImm 255))
              (InternalParameter.with_value (Some 3)
                 (InternalParameter.fresh_contents (UInt 8) false 0 "gain" true))
              eq_refl eq_refl) as (_ & Hmax).
  exact Hmax.
Defined.

(** ** The three conversions *)

(** X10: the three conversions of a live handle agree with each other and
    change nothing: the extern argument wraps exactly the expression form;
    the expression form is the variable over the record of the handle whose
    name and type are the name and type of the signature argument; its type
    is [type()], and its name is [name()]. *)
Theorem conversions_agree {T : Type} `{ScalarType T} (u : option Type_)
    (view : ParameterContents -> Expr) (p : Param T) (w : World)
    (r : ParameterContents) :
  record_of p w = Some r ->
  exists (e : Expr) (a : Argument),
    to_Expr p w = (Ok e, w) ∧
    to_ExternFuncArgument p w = (Ok (ExternExpr e), w) ∧
    to_Argument view p w = (Ok a, w) ∧
    e = VariableNode (arg_type a) (arg_name a) (param p) ∧
    result_of (Expr_type u e) w = Ok (type p) ∧
    result_of (name p) w = Ok (arg_name a) ∧
    backing_record e = Some (param p).
Proof.
  intros Hr.
  exists (VariableNode (type_of T) (pc_name r) (param p)),
         {| arg_name := pc_name r; arg_kind := InputScalar; arg_type := type_of T;
            arg_dimensions := 0; arg_def := view r;
            arg_min := pc_min_value r; arg_max := pc_max_value r |}.
  split; [by apply to_Expr_run |].
  split.
  { unfold to_ExternFuncArgument. by rewrite (bind_ok _ _ _ _ _ (to_Expr_run p w r Hr)). }
  split.
  { unfold to_Argument.
    rewrite (bind_ok _ _ _ _ _ (name_run p w r Hr)).
    unfold InternalParameter.get_scalar_expr.
    rewrite (bind_ok _ _ _ _ _ (read_live _ view w r Hr)).
    rewrite (bind_ok _ _ _ _ _ (get_min_value_run p w r Hr)).
    by rewrite (bind_ok _ _ _ _ _ (get_max_value_run p w r Hr)). }
  split; [done |]. split; [done |].
  split; [| done]. unfold result_of. by rewrite (name_run p w r Hr).
Qed.

Lemma conversions_agree_witness :
  exists (e : Expr) (a : Argument),
    to_Expr threshold threshold_world = (Ok e, threshold_world) ∧
    to_ExternFuncArgument threshold threshold_world = (Ok (ExternExpr e), threshold_world) ∧
    to_Argument (fun _ => Undefined) threshold threshold_world = (Ok a, threshold_world) ∧
    e = VariableNode (arg_type a) (arg_name a) (param threshold).
Proof.
  destruct (conversions_agree None (fun _ => Undefined) threshold threshold_world _
              threshold_record) as (e & a & He & Hx & Ha & Hv & _).
  exists e, a. repeat split; assumption.
Defined.

(** ** Ranges *)

(** X11: on a live handle and for bounds whose tags can be read,
    [set_range(min, max)] is read back by both getters and leaves name, flag
    and value as they were; a later [set_min_value] replaces the lower bound
    only, a later [set_max_value] the upper bound only, and a later [set]
    the value only. *)
Theorem set_range_read_back {T : Type} `{ScalarType T} (u : option Type_)
    (p : Param T) (v : T) (lo hi e : Expr) (tlo thi te : Type_) (w : World)
    (r : ParameterContents) :
  record_of p w = Some r ->
  type_read u lo = Some tlo ->
  type_read u hi = Some thi ->
  type_read u e = Some te ->
  result_of (set_range u p lo hi;; observe p) w =
    Ok (pc_name r, pc_is_explicit_name r, of_slot <$> pc_value r,
        stored_bound T tlo lo, stored_bound T thi hi) ∧
  result_of (set_range u p lo hi;; set_min_value u p e;; observe p) w =
    Ok (pc_name r, pc_is_explicit_name r, of_slot <$> pc_value r,
        stored_bound T te e, stored_bound T thi hi) ∧
  result_of (set_range u p lo hi;; set_max_value u p e;; observe p) w =
    Ok (pc_name r, pc_is_explicit_name r, of_slot <$> pc_value r,
        stored_bound T tlo lo, stored_bound T te e) ∧
  result_of (set_range u p lo hi;; set p v;; observe p) w =
    Ok (pc_name r, pc_is_explicit_name r, Some v,
        stored_bound T tlo lo, stored_bound T thi hi).
Proof.
  intros Hr Elo Ehi Ee.
  destruct (set_range_record u p lo hi tlo thi w r Hr Elo Ehi) as (w2 & E2 & Hr2).
  unfold result_of. rewrite !(bind_ok _ _ _ _ _ E2). repeat split.
  - by rewrite (observe_run p w2 _ Hr2).
  - destruct (set_min_value_record u p e te w2 _ Hr2 Ee) as (w3 & E3 & Hr3).
    rewrite (bind_ok _ _ _ _ _ E3). by rewrite (observe_run p w3 _ Hr3).
  - destruct (set_max_value_record u p e te w2 _ Hr2 Ee) as (w3 & E3 & Hr3).
    rewrite (bind_ok _ _ _ _ _ E3). by rewrite (observe_run p w3 _ Hr3).
  - rewrite (bind_ok _ _ _ _ _ (set_run p w2 _ Hr2 v)).
    rewrite (observe_run p _ _ (record_after_write p w2 _ _ _ Hr2)); simpl.
    by rewrite of_to_slot.
Qed.

Lemma set_range_read_back_witness :
  result_of (set_range None threshold (IntImm 1) (FloatImm 2);;
             set_min_value None threshold (IntImm 3);; observe threshold)
    threshold_world =
    Ok ("threshold", true, Some (Int32 5), IntImm 3, CastNode (Int 32) (FloatImm 2)).
Proof.
  destruct (set_range_read_back None threshold (Int32 0) (IntImm 1) (FloatImm 2)
              (IntImm 3) (Int 32) (Float 32) (Int 32) threshold_world _
              threshold_record eq_refl eq_refl eq_refl) as (_ & Hmin & _).
  exact Hmin.
Defined.

(** ** Handles built separately *)



